(** * Verilator runtime internals (include/verilated_imp.h)

    A shallow embedding of the threaded message queues
    ([VerilatedMsg], [VerilatedEvalMsgQueue], [VerilatedThreadMsgQueue])
    and of the process-wide registry [VerilatedImp], followed by the
    properties established about them. *)

From Stdlib Require Import ZArith NArith Lia String Ascii.
From stdpp Require Import gmap strings list fin_maps sorting.

Local Open Scope N_scope.

(** ** Threaded message passing *)

(** [VerilatedMsg]: the mtask that enqueued the message and the lambda to
    run on the eval thread.  The closure is opaque to the queues; it is
    represented by an identifier, and running it is recorded in a log. *)
Module VerilatedMsg.

Record t := Build { mtaskId : N; (* vluint32_t m_mtaskId *)
                    cb : nat     (* std::function<void()> m_cb *) }.

(** [struct Cmp]: [a.mtaskId() < b.mtaskId()]. *)
Definition Cmp (a b : t) : bool := mtaskId a <? mtaskId b.

(** The order in which the consumer may run two messages. *)
Definition le (a b : t) : Prop := mtaskId a <= mtaskId b.

End VerilatedMsg.

(** [std::multiset<VerilatedMsg, VerilatedMsg::Cmp>]: the container is the
    list of its elements in iteration order.  [insert] places the new
    element at the upper bound of the equivalent range, that is before the
    first element the new one compares less than. *)
Module multiset.

Fixpoint insert (msg : VerilatedMsg.t) (q : list VerilatedMsg.t)
  : list VerilatedMsg.t :=
  match q with
  | [] => [msg]
  | x :: q' => if VerilatedMsg.Cmp msg x then msg :: x :: q'
               else x :: insert msg q'
  end.

End multiset.

(** [std::atomic<vluint64_t>] arithmetic. *)
Definition uint64_modulus : N := 2 ^ 64.
Definition uint64_incr (d : N) : N := (d + 1) mod uint64_modulus.
Definition uint64_decr (d : N) : N := (d + uint64_modulus - 1) mod uint64_modulus.

Module VerilatedEvalMsgQueue.

Record t := Build { m_depth : N;                     (* atomic depth *)
                    m_queue : list VerilatedMsg.t    (* VerilatedThreadQueue *) }.

(** Constructor: [m_depth(0)], empty queue. *)
Definition new : t := {| m_depth := 0; m_queue := [] |}.

(** [post]: insert under the mutex, then [++m_depth]. *)
Definition post (msg : VerilatedMsg.t) (q : t) : t :=
  {| m_depth := uint64_incr (m_depth q);
     m_queue := multiset.insert msg (m_queue q) |}.

(** How a call of [process] ends: the loop leaves with the queue state and
    the messages run (in order), or [assert(!m_queue.empty())] fails, or
    the iteration budget of the model is used up. *)
Inductive outcome :=
| Drained (q : t) (ran : list VerilatedMsg.t)
| AssertFailed (q : t) (ran : list VerilatedMsg.t)
| OutOfFuel.

(** One pass through [while (m_depth) { ... }]: take [*m_queue.begin()],
    erase it, [m_depth--], then [msg.run()]. *)
Fixpoint process_loop (fuel : nat) (q : t) (ran : list VerilatedMsg.t)
  : outcome :=
  if m_depth q =? 0 then Drained q ran
  else match fuel with
       | O => OutOfFuel
       | S fuel' =>
           match m_queue q with
           | [] => AssertFailed q ran
           | msg :: rest =>
               process_loop fuel'
                 {| m_depth := uint64_decr (m_depth q); m_queue := rest |}
                 (ran ++ [msg])
           end
       end.

(** [process]: every iteration lowers a non-zero [m_depth] by one, so
    [m_depth] iterations are all the loop can make. *)
Definition process (q : t) : outcome :=
  process_loop (N.to_nat (m_depth q)) q [].

(** The queue after a sequence of [post] calls, first call first. *)
Definition post_all (msgs : list VerilatedMsg.t) (q : t) : t :=
  fold_left (fun q msg => post msg q) msgs q.

End VerilatedEvalMsgQueue.

(** Each thread's local queue, with the two pieces of [Verilated] state its
    methods touch. *)
Module VerilatedThreadMsgQueue.

Record t := Build {
  m_queue : list VerilatedMsg.t;   (* std::queue<VerilatedMsg>, front first *)
  endOfEvalReqd : Z;               (* moved by endOfEvalReqdInc/Dec *)
  ran : list VerilatedMsg.t        (* messages run at once by [post] *)
}.

(** Modelled from the spec: [Verilated::endOfEvalReqdInc] and
    [Verilated::endOfEvalReqdDec] are declared in verilated.h, which is
    not part of this header; they raise and lower the pending-flush
    counter by one. *)
Definition endOfEvalReqdInc (c : Z) : Z := (c + 1)%Z.
Definition endOfEvalReqdDec (c : Z) : Z := (c - 1)%Z.

(** [post]; [cur] is what [Verilated::mtaskId()] returns in the calling
    thread at the time of the call. *)
Definition post (cur : N) (msg : VerilatedMsg.t) (s : t) : t :=
  if cur =? 0 then
    {| m_queue := m_queue s; endOfEvalReqd := endOfEvalReqd s;
       ran := ran s ++ [msg] |}
  else
    {| m_queue := m_queue s ++ [msg];
       endOfEvalReqd := endOfEvalReqdInc (endOfEvalReqd s);
       ran := ran s |}.

(** The body of [flush]: [while (!m_queue.empty())] post the front to the
    eval queue, pop it, decrement the counter. *)
Fixpoint flush_loop (staged : list VerilatedMsg.t) (c : Z)
    (evalMsgQ : VerilatedEvalMsgQueue.t)
  : list VerilatedMsg.t * Z * VerilatedEvalMsgQueue.t :=
  match staged with
  | [] => ([], c, evalMsgQ)
  | front :: rest =>
      flush_loop rest (endOfEvalReqdDec c)
        (VerilatedEvalMsgQueue.post front evalMsgQ)
  end.

Definition flush (s : t) (evalMsgQ : VerilatedEvalMsgQueue.t)
  : t * VerilatedEvalMsgQueue.t :=
  let '(staged, c, evalMsgQ') :=
    flush_loop (m_queue s) (endOfEvalReqd s) evalMsgQ in
  ({| m_queue := staged; endOfEvalReqd := c; ran := ran s |}, evalMsgQ').

(** A sequence of [post] calls of one thread, first call first; each
    call comes with the task identifier current at that call. *)
Definition post_calls (calls : list (N * VerilatedMsg.t)) (s : t) : t :=
  fold_left (fun s c => post (fst c) (snd c) s) calls s.

End VerilatedThreadMsgQueue.

(** ** C strings

    A [const char*] is the run of characters found at the pointer: the C
    string ends before the first NUL, or where the Rocq string ends (the
    terminator then sits just behind it). *)
Module CString.

Definition NUL : ascii := Ascii.zero.

(** The character at the head of the run; the terminator when empty. *)
Definition front (s : string) : ascii :=
  match s with
  | EmptyString => NUL
  | String c _ => c
  end.

(** The pointer moved forward by one character ([p + 1]). *)
Definition next (s : string) : string :=
  match s with
  | EmptyString => EmptyString
  | String _ s' => s'
  end.

Fixpoint strlen (s : string) : nat :=
  match s with
  | EmptyString => O
  | String c s' => if Ascii.eqb c NUL then O else S (strlen s')
  end.

(** [strncmp]: compare at most [n] characters as unsigned bytes, stopping
    behind a common NUL; the result is the difference at the first
    mismatch, zero when there is none. *)
Fixpoint strncmp (a b : string) (n : nat) : Z :=
  match n with
  | O => 0%Z
  | S n' =>
      let ca := front a in
      let cb := front b in
      if Ascii.eqb ca cb then
        if Ascii.eqb ca NUL then 0%Z else strncmp (next a) (next b) n'
      else (Z.of_N (N_of_ascii ca) - Z.of_N (N_of_ascii cb))%Z
  end.

(** The characters of the C string, without what follows its end. *)
Fixpoint chars (s : string) : string :=
  match s with
  | EmptyString => EmptyString
  | String c s' => if Ascii.eqb c NUL then EmptyString else String c (chars s')
  end.

End CString.

(** ** Machine integers of the registry *)

(** [IData] is an unsigned 32-bit word. *)
Definition IData_modulus : N := 2 ^ 32.
Definition to_IData (n : N) : N := n mod IData_modulus.

(** [int] arithmetic with two's complement wrap-around. *)
Definition int_wrap (z : Z) : Z := ((z + 2 ^ 31) mod 2 ^ 32 - 2 ^ 31)%Z.
Definition int_incr (z : Z) : Z := int_wrap (z + 1).

(** Modelled from the spec: [VL_MASK_I] is a macro of verilatedos.h, which
    is not part of this header; [VL_MASK_I(nbits)] is the word whose low
    [nbits] bits are set, so that [VL_MASK_I(31)] strips the top bit that
    tells a descriptor from a multi-channel handle. *)
Definition VL_MASK_I (nbits : N) : N := N.ones nbits.

(** Pointers are addresses; the null pointer is address zero. *)
Definition NULL : N := 0.

(** [VerilatedScope] as far as the registry looks at it: the address of the
    object ([scopep]) and what [scopep->name()] returns. *)
Module VerilatedScope.
Record t := Build { scopep : N; name : string }.
End VerilatedScope.

(** ** Observable events of a registry call *)

Inductive Mutex :=
| m_argMutex | m_userMapMutex | m_nameMutex | m_exportMutex | m_fdMutex.

Inductive Event :=
| EvLock (m : Mutex)                                (* VerilatedLockGuard taken *)
| EvUnlock (m : Mutex)                              (* guard leaves scope *)
| EvFatal (msg : string)                            (* VL_FATAL_MT *)
| EvFopen (filenamep modep : string) (fp : N)       (* native fopen and its result *)
| EvFclose (fp : N).                                (* native fclose *)

#[global] Instance Mutex_eq_dec : EqDecision Mutex.
Proof. solve_decision. Defined.

(** ** VerilatedImp *)

Module VerilatedImp.

(** The members the modelled methods touch ([m_ser], [m_serg] and
    [m_hierMap] play no part in them). *)
Record t := Build {
  m_argVec : list string;            (* ArgVec *)
  m_argVecLoaded : bool;             (* ever loaded argument list *)
  m_userMap : gmap (N * N) N;        (* <(scope,userkey), userData> *)
  m_nameMap : gmap string N;         (* <scope_name, scope pointer> *)
  m_exportMap : gmap string Z;       (* <export_func_proto, func number> *)
  m_exportNext : Z;                  (* next export funcnum *)
  m_fdps : list N;                   (* std::vector<FILE*> *)
  m_fdFree : list N;                 (* free descriptors *)
  m_fdFreeMct : list N               (* free descriptors in the MCT region *)
}.

Definition set_argVecLoaded (b : bool) (s : t) : t :=
  Build (m_argVec s) b (m_userMap s) (m_nameMap s) (m_exportMap s)
        (m_exportNext s) (m_fdps s) (m_fdFree s) (m_fdFreeMct s).
Definition set_userMap (m : gmap (N * N) N) (s : t) : t :=
  Build (m_argVec s) (m_argVecLoaded s) m (m_nameMap s) (m_exportMap s)
        (m_exportNext s) (m_fdps s) (m_fdFree s) (m_fdFreeMct s).
Definition set_nameMap (m : gmap string N) (s : t) : t :=
  Build (m_argVec s) (m_argVecLoaded s) (m_userMap s) m (m_exportMap s)
        (m_exportNext s) (m_fdps s) (m_fdFree s) (m_fdFreeMct s).
Definition set_exportMap (m : gmap string Z) (s : t) : t :=
  Build (m_argVec s) (m_argVecLoaded s) (m_userMap s) (m_nameMap s) m
        (m_exportNext s) (m_fdps s) (m_fdFree s) (m_fdFreeMct s).
Definition set_exportNext (n : Z) (s : t) : t :=
  Build (m_argVec s) (m_argVecLoaded s) (m_userMap s) (m_nameMap s)
        (m_exportMap s) n (m_fdps s) (m_fdFree s) (m_fdFreeMct s).
Definition set_fdps (l : list N) (s : t) : t :=
  Build (m_argVec s) (m_argVecLoaded s) (m_userMap s) (m_nameMap s)
        (m_exportMap s) (m_exportNext s) l (m_fdFree s) (m_fdFreeMct s).
Definition set_fdFree (l : list N) (s : t) : t :=
  Build (m_argVec s) (m_argVecLoaded s) (m_userMap s) (m_nameMap s)
        (m_exportMap s) (m_exportNext s) (m_fdps s) l (m_fdFreeMct s).
Definition set_fdFreeMct (l : list N) (s : t) : t :=
  Build (m_argVec s) (m_argVecLoaded s) (m_userMap s) (m_nameMap s)
        (m_exportMap s) (m_exportNext s) (m_fdps s) (m_fdFree s) l.

(** [for (int i = 0, id = first; i < n; i++, id++) v[i] = id]. *)
Fixpoint iota (first : N) (n : nat) : list N :=
  match n with
  | O => []
  | S n' => first :: iota (N.succ first) n'
  end.

(** Constructor: 31 null slots and the channel identifiers 1..30. *)
Definition new : t :=
  {| m_argVec := []; m_argVecLoaded := false;
     m_userMap := ∅; m_nameMap := ∅;
     m_exportMap := ∅; m_exportNext := 0;
     m_fdps := replicate 31 NULL;
     m_fdFree := [];
     m_fdFreeMct := iota 1 30 |}.

(** *** Calls as computations

    A method runs on the singleton and leaves a trace of events.  It
    returns, or the process is halted by a fatal diagnostic, or the call
    steps outside what C++ defines (a vector read or written out of
    range, [back()] of an empty vector). *)
Inductive result (A : Type) :=
| Returned (a : A)
| Halted
| Undefined.
Arguments Returned {A} a.
Arguments Halted {A}.
Arguments Undefined {A}.

Record world := World { imp : t; trace : list Event }.

Definition M (A : Type) : Type := world -> result A * world.

#[global] Instance M_ret : MRet M := fun A a w => (Returned a, w).
#[global] Instance M_bind : MBind M := fun A B f c w =>
  match c w with
  | (Returned a, w') => f a w'
  | (Halted, w') => (Halted, w')
  | (Undefined, w') => (Undefined, w')
  end.

Definition get : M t := fun w => (Returned (imp w), w).
Definition modify (f : t -> t) : M unit :=
  fun w => (Returned tt, World (f (imp w)) (trace w)).
Definition emit (e : Event) : M unit :=
  fun w => (Returned tt, World (imp w) (trace w ++ [e])).
Definition undefined {A} : M A := fun w => (Undefined, w).

(** Run a call on a registry state, from an empty trace. *)
Definition run {A} (c : M A) (s : t) : result A * t * list Event :=
  let '(r, w) := c (World s []) in (r, imp w, trace w).

(** Modelled from the spec: [VL_FATAL_MT] is a macro of verilated.h,
    which is not part of this header; it emits the diagnostic and halts
    the process, so nothing behind it runs. *)
Definition VL_FATAL_MT (msg : string) : M unit :=
  fun w => (Halted, World (imp w) (trace w ++ [EvFatal msg])).

(** [VerilatedLockGuard lock(m)] at the head of a block: the mutex is
    taken, and given back when the block is left by a return. *)
Definition VerilatedLockGuard {A} (m : Mutex) (body : M A) : M A :=
  emit (EvLock m);; r ← body; emit (EvUnlock m);; mret r.

(** *** Arguments *)

Definition argPlusMatch_msg : string :=
  "%Error: Verilog called $test$plusargs or $value$plusargs without testbench C first calling Verilated::commandArgs(argc,argv).".

(** The [for] loop of [argPlusMatch] over [m_argVec]. *)
Fixpoint argPlusMatch_scan (prefixp : string) (len : nat)
    (args : list string) : string :=
  match args with
  | [] => EmptyString
  | it :: rest =>
      if Ascii.eqb (CString.front it) "+"%char then
        if (0 =? CString.strncmp prefixp (CString.next it) len)%Z then it
        else argPlusMatch_scan prefixp len rest
      else argPlusMatch_scan prefixp len rest
  end.

Definition argPlusMatch (prefixp : string) : M string :=
  VerilatedLockGuard m_argMutex (
    let len := CString.strlen prefixp in
    s ← get;
    (if negb (m_argVecLoaded s) then
       modify (set_argVecLoaded true);;   (* Complain only once *)
       VL_FATAL_MT argPlusMatch_msg
     else mret tt);;
    s ← get;
    mret (argPlusMatch_scan prefixp len (m_argVec s))).

(** *** User scope tracking *)

Definition userInsert (scopep userKey userData : N) : M unit :=
  VerilatedLockGuard m_userMapMutex (
    s ← get;
    match m_userMap s !! (scopep, userKey) with
    | Some _ =>    (* it->second = userData *)
        modify (set_userMap (<[(scopep, userKey) := userData]> (m_userMap s)))
    | None =>
        modify (set_userMap (<[(scopep, userKey) := userData]> (m_userMap s)))
    end).

Definition userFind (scopep userKey : N) : M N :=
  VerilatedLockGuard m_userMapMutex (
    s ← get;
    match m_userMap s !! (scopep, userKey) with
    | None => mret NULL
    | Some userData => mret userData
    end).

(** The loop of [userEraseScope]: visit every entry, erase the ones whose
    key starts with [scopep]. *)
Definition userEraseScope_loop (scopep : N) (entries : list (N * N * N))
    (m : gmap (N * N) N) : gmap (N * N) N :=
  fold_left (fun m it => if it.1.1 =? scopep then delete it.1 m else m)
            entries m.

Definition userEraseScope (scopep : N) : M unit :=
  VerilatedLockGuard m_userMapMutex (
    modify (fun s =>
      set_userMap
        (userEraseScope_loop scopep (map_to_list (m_userMap s)) (m_userMap s)) s)).

(** *** Scope names *)

Definition scopeInsert (scope : VerilatedScope.t) : M unit :=
  VerilatedLockGuard m_nameMutex (
    s ← get;
    match m_nameMap s !! VerilatedScope.name scope with
    | None =>
        modify (set_nameMap
                  (<[VerilatedScope.name scope := VerilatedScope.scopep scope]>
                     (m_nameMap s)))
    | Some _ => mret tt
    end).

Definition scopeFind (namep : string) : M N :=
  VerilatedLockGuard m_nameMutex (
    s ← get;
    match m_nameMap s !! namep with
    | None => mret NULL
    | Some scopep => mret scopep
    end).

Definition scopeErase (scope : VerilatedScope.t) : M unit :=
  VerilatedLockGuard m_nameMutex (
    userEraseScope (VerilatedScope.scopep scope);;
    s ← get;
    match m_nameMap s !! VerilatedScope.name scope with
    | Some _ => modify (set_nameMap (delete (VerilatedScope.name scope) (m_nameMap s)))
    | None => mret tt
    end).

(** *** Export names *)

Definition exportFind_msg (namep : string) : string :=
  "%Error: Testbench C called " +:+ namep
    +:+ " but no such DPI export function name exists in ANY model".

(** [m_exportNext++]: the value before, the member one higher. *)
Definition exportNext_postincr : M Z :=
  s ← get;
  modify (set_exportNext (int_incr (m_exportNext s)));;
  mret (m_exportNext s).

Definition exportInsert (namep : string) : M Z :=
  VerilatedLockGuard m_exportMutex (
    s ← get;
    match m_exportMap s !! namep with
    | None =>
        n ← exportNext_postincr;
        modify (fun s => set_exportMap (<[namep := n]> (m_exportMap s)) s);;
        exportNext_postincr
    | Some funcnum => mret funcnum
    end).

Definition exportFind (namep : string) : M Z :=
  VerilatedLockGuard m_exportMutex (
    s ← get;
    match m_exportMap s !! namep with
    | Some funcnum => mret funcnum
    | None =>
        VL_FATAL_MT (exportFind_msg namep);;
        mret (-1)%Z
    end).

(** *** File IO *)

(** [v[idx]] on a vector: outside the vector the call is undefined. *)
Definition fdps_read (idx : N) : M N :=
  s ← get;
  match m_fdps s !! N.to_nat idx with
  | Some fp => mret fp
  | None => undefined
  end.

Definition fdps_write (idx : N) (fp : N) : M unit :=
  s ← get;
  if decide (N.to_nat idx < length (m_fdps s))%nat then
    modify (set_fdps (<[N.to_nat idx := fp]> (m_fdps s)))
  else undefined.

(** [v.back()] then [v.pop_back()]. *)
Definition pop_back (v : list N) : option (N * list N) :=
  match last v with
  | Some x => Some (x, removelast v)
  | None => None
  end.

(** The C library's [fclose].  The call is recorded with its argument;
    on the null pointer it is outside what C defines, and nothing behind
    it is modelled. *)
Definition native_fclose (fp : N) : M unit :=
  emit (EvFclose fp);;
  if fp =? NULL then undefined else mret tt.

(** The multi-channel loop of [fdClose]:
    [for (int i = 0; (fdi != 0) && (i < 31); i++, fdi >>= 1)];
    [left] counts the values of [i] still below 31. *)
Fixpoint fdClose_mcd (left : nat) (i : N) (fdi : N) : M unit :=
  match left with
  | O => mret tt
  | S left' =>
      if fdi =? 0 then mret tt
      else
        (if negb (N.land fdi (VL_MASK_I 1) =? 0) then
           fp ← fdps_read i;
           native_fclose fp;;
           fdps_write i NULL;;
           modify (fun s => set_fdFreeMct (m_fdFreeMct s ++ [i]) s)
         else mret tt);;
        fdClose_mcd left' (i + 1) (N.shiftr fdi 1)
  end.

Definition fdClose (fdi : N) : M unit :=
  VerilatedLockGuard m_fdMutex (
    if negb (N.land fdi (N.shiftl 1 31) =? 0) then
      (* Non-MCD case *)
      let idx := N.land (VL_MASK_I 31) fdi in
      s ← get;
      if N.of_nat (length (m_fdps s)) <=? idx then mret tt
      else
        fp ← fdps_read idx;
        if fp =? NULL then mret tt   (* Already free *)
        else
          native_fclose fp;;
          fdps_write idx NULL;;
          modify (fun s => set_fdFree (m_fdFree s ++ [idx]) s)
    else
      (* MCD case *)
      fdClose_mcd 31 0 fdi).

Section NativeOpen.

(** What the C library's [fopen] answers, at the time of the call that
    is modelled, for a file name and a mode: a stream, or [NULL] when
    the open fails.  Each of [fdNewMcd] and [fdNew] opens once; two calls
    are given their answers separately. *)
Variable fopen : string -> string -> N.

Definition native_fopen (filenamep modep : string) : M N :=
  let fp := fopen filenamep modep in
  emit (EvFopen filenamep modep fp);; mret fp.

Definition fdNewMcd (filenamep : string) : M N :=
  VerilatedLockGuard m_fdMutex (
    s ← get;
    match pop_back (m_fdFreeMct s) with
    | None => mret 0
    | Some (idx, rest) =>
        modify (set_fdFreeMct rest);;
        fp ← native_fopen filenamep "w";
        fdps_write idx fp;;
        fp' ← fdps_read idx;
        if fp' =? NULL then mret 0
        else mret (to_IData (N.shiftl 1 idx))
    end).

(** The growth step of [fdNew], taken when [m_fdFree] is empty. *)
Definition fdNew_grow (s : t) : t :=
  let start := N.max (31 + 1 + 3) (N.of_nat (length (m_fdps s))) in
  let excess := 10 in
  let fdps := m_fdps s ++ replicate (N.to_nat (start + excess) - length (m_fdps s)) NULL in
  set_fdFree (iota start (N.to_nat excess)) (set_fdps fdps s).

Definition fdNew (filenamep modep : string) : M N :=
  fp ← native_fopen filenamep modep;
  if fp =? NULL then mret 0
  else
    (* Bit 31 indicates it's a descriptor not a MCD *)
    VerilatedLockGuard m_fdMutex (
      s ← get;
      (if decide (m_fdFree s = []) then modify fdNew_grow else mret tt);;
      s ← get;
      match pop_back (m_fdFree s) with
      | None => undefined
      | Some (idx, rest) =>
          modify (set_fdFree rest);;
          fdps_write idx fp;;
          mret (to_IData (N.lor idx (N.shiftl 1 31)))
      end).

End NativeOpen.

Section NativeStreams.

(** The three standard streams of the C library. *)
Variables stdin stdout stderr : N.

(** The multi-channel loop of [fdToFp]:
    [for (int i = 0; (fdi != 0) && (out < max) && (i < 31); i++, fdi >>= 1)];
    [fp] is what has been stored in the caller's array so far (its
    length is [out]), [left] counts the values of [i] still below 31. *)
Fixpoint fdToFp_mcd (left : nat) (i fdi : N) (max : N) (fp : list N)
  : M (list N) :=
  match left with
  | O => mret fp
  | S left' =>
      if (fdi =? 0) || negb (N.of_nat (length fp) <? max) then mret fp
      else
        fp' ← (if negb (N.land fdi (VL_MASK_I 1) =? 0) then
                 stream ← fdps_read i; mret (fp ++ [stream])
               else mret fp);
        fdToFp_mcd left' (i + 1) (N.shiftr fdi 1) max fp'
  end.

(** [fdToFp]: the streams stored into the caller's array, in order; the
    [int] the function returns is their number.  [fp_given] tells whether
    the caller passed a non-null array. *)
Definition fdToFp (fdi : N) (fp_given : bool) (max : N) : M (list N) :=
  if negb fp_given || (max =? 0) then mret []
  else
    VerilatedLockGuard m_fdMutex (
      if negb (N.land fdi (N.shiftl 1 31) =? 0) then
        (* Non-MCD case *)
        let idx := N.land fdi (VL_MASK_I 31) in
        if idx =? 0 then mret [stdin]
        else if idx =? 1 then mret [stdout]
        else if idx =? 2 then mret [stderr]
        else
          s ← get;
          if idx <? N.of_nat (length (m_fdps s)) then
            stream ← fdps_read idx; mret [stream]
          else mret []
      else
        (* MCD case *)
        fdToFp_mcd 31 0 fdi max []).

(** [static_cast<IData>] of a [long] or an [int]. *)
Definition IData_of_Z (z : Z) : N := Z.to_N (z mod 2 ^ 32).

(** What the C library's [ftell] and [fseek] answer. *)
Variable ftell : N -> Z.
Variable fseek : N -> Z -> Z -> Z.

(** [fdTell]: the local [FILE* fp] is written by [fdToFp] only when a
    stream is resolved; [fp0] is what it holds otherwise. *)
Definition fdTell (fp0 : N) (fdi : N) : M N :=
  resolved ← fdToFp fdi true 1;
  let fp := match resolved with stream :: _ => stream | [] => fp0 end in
  let n := length resolved in
  VerilatedLockGuard m_fdMutex (
    if (fp =? NULL) || negb (Nat.eqb n 1) then mret 0
    else mret (IData_of_Z (ftell fp))).

(** [fdSeek]: as [fdTell], with the offset cast to [long] and the origin
    to [int]. *)
Definition fdSeek (fp0 : N) (fdi offset origin : N) : M N :=
  resolved ← fdToFp fdi true 1;
  let fp := match resolved with stream :: _ => stream | [] => fp0 end in
  let n := length resolved in
  VerilatedLockGuard m_fdMutex (
    if (fp =? NULL) || negb (Nat.eqb n 1) then mret 0
    else mret (IData_of_Z (fseek fp (Z.of_N offset) (int_wrap (Z.of_N origin))))).

End NativeStreams.

(** *** Export names, the way back *)

Section ExportOrder.

(** The entries of [m_exportMap] in the order its iterator visits them:
    the order of [VerilatedCStrCmp], which is declared in verilated.h and
    not in this header. *)
Variable iteration : gmap string Z -> list (string * Z).

(** The loop of [exportName]. *)
Fixpoint exportName_scan (funcnum : Z) (entries : list (string * Z)) : string :=
  match entries with
  | [] => "*UNKNOWN*"
  | it :: rest =>
      if (it.2 =? funcnum)%Z then it.1 else exportName_scan funcnum rest
  end.

Definition exportName (funcnum : Z) : M string :=
  VerilatedLockGuard m_exportMutex (
    s ← get;
    mret (exportName_scan funcnum (iteration (m_exportMap s)))).

End ExportOrder.

(** *** Hierarchy

    [m_hierMap] is not among the members of [t]; [hierarchyAdd] is given
    as what it does to that map (under [m_hierMapMutex]):
    [m_hierMap[fromp].push_back(top)]. *)
Definition hierarchyAdd (fromp top : N) (m_hierMap : gmap N (list N))
  : gmap N (list N) :=
  <[fromp := default [] (m_hierMap !! fromp) ++ [top]]> m_hierMap.

End VerilatedImp.

(** ** Reading a trace: which mutexes are held when a fatal diagnostic
    is emitted *)
Module Trace.

(** The mutexes held at each [EvFatal] of a trace, given the ones held
    when the trace starts. *)
Fixpoint locks_at_fatal (held : list Mutex) (tr : list Event)
  : list (list Mutex) :=
  match tr with
  | [] => []
  | EvLock m :: tr' => locks_at_fatal (m :: held) tr'
  | EvUnlock m :: tr' =>
      locks_at_fatal (filter (fun m' => m' ≠ m) held) tr'
  | EvFatal _ :: tr' => held :: locks_at_fatal held tr'
  | _ :: tr' => locks_at_fatal held tr'
  end.

(** No fatal diagnostic of the trace is emitted under a lock. *)
Definition fatal_outside_locks (tr : list Event) : Prop :=
  Forall (fun held => held = []) (locks_at_fatal [] tr).

End Trace.

(** ** The plus-argument lookup in the words of its description *)
Module PlusArgs.

(** The token begins with '+' and what follows the '+' starts with the
    prefix. *)
Definition plus_match (prefix tok : string) : bool :=
  match tok with
  | String c rest => Ascii.eqb c "+"%char && String.prefix prefix rest
  | EmptyString => false
  end.

(** The first such token, or the empty string. *)
Definition first_match (prefix : string) (args : list string) : string :=
  match List.find (plus_match prefix) args with
  | Some tok => tok
  | None => EmptyString
  end.

End PlusArgs.

(** ** The sequence of [post] calls of a thread, split by where the
    messages go *)
Module Calls.

(** The messages posted from inside an mtask, in the order of the calls. *)
Definition staged (calls : list (N * VerilatedMsg.t)) : list VerilatedMsg.t :=
  map snd (List.filter (fun c => negb (fst c =? 0)) calls).

(** The messages posted outside any mtask. *)
Definition outside (calls : list (N * VerilatedMsg.t)) : list VerilatedMsg.t :=
  map snd (List.filter (fun c => fst c =? 0) calls).

End Calls.

(** ** Statements about the registry and the queues, word for word *)
Module AsStated.

(** Scope names are unique: the entry found under the name of [scope],
    when there is one, is the entry of [scope] itself. *)
Definition name_is_own (s : VerilatedImp.t) (scope : VerilatedScope.t) : Prop :=
  forall p, VerilatedImp.m_nameMap s !! VerilatedScope.name scope = Some p ->
            p = VerilatedScope.scopep scope.

(** [scopeErase scope] removes the scope's name entry and all its user
    data, and leaves the user data and the name entries of every other
    scope unchanged. *)
Definition scopeErase_frame (s : VerilatedImp.t) (scope : VerilatedScope.t)
  : Prop :=
  let s' := (VerilatedImp.run (VerilatedImp.scopeErase scope) s).1.2 in
  VerilatedImp.m_nameMap s' !! VerilatedScope.name scope = None
  /\ (forall userKey,
        VerilatedImp.m_userMap s' !! (VerilatedScope.scopep scope, userKey)
        = None)
  /\ (forall scopep' userKey,
        scopep' ≠ VerilatedScope.scopep scope ->
        VerilatedImp.m_userMap s' !! (scopep', userKey)
        = VerilatedImp.m_userMap s !! (scopep', userKey))
  /\ (forall namep scopep',
        scopep' ≠ VerilatedScope.scopep scope ->
        VerilatedImp.m_nameMap s !! namep = Some scopep' ->
        VerilatedImp.m_nameMap s' !! namep = Some scopep').

(** [flush] moves every action the thread posted since its last flush, in
    the order posted, lowers the counter once for each and leaves the
    staging queue empty.  [s] is the thread's queue right after that last
    flush. *)
Definition flush_moves_all_posted (s : VerilatedThreadMsgQueue.t)
    (evalMsgQ : VerilatedEvalMsgQueue.t) (calls : list (N * VerilatedMsg.t))
  : Prop :=
  let s1 := VerilatedThreadMsgQueue.post_calls calls s in
  VerilatedThreadMsgQueue.flush s1 evalMsgQ
  = ({| VerilatedThreadMsgQueue.m_queue := [];
        VerilatedThreadMsgQueue.endOfEvalReqd :=
          (VerilatedThreadMsgQueue.endOfEvalReqd s1 - Z.of_nat (length calls))%Z;
        VerilatedThreadMsgQueue.ran := VerilatedThreadMsgQueue.ran s1 |},
     VerilatedEvalMsgQueue.post_all (map snd calls) evalMsgQ).

End AsStated.

(** ** Concrete registries and calls used as examples *)
Module Examples.

Import VerilatedImp.

(** A registry whose argument list has been loaded with [args]. *)
Definition loaded (args : list string) : VerilatedImp.t :=
  {| m_argVec := args; m_argVecLoaded := true;
     m_userMap := ∅; m_nameMap := ∅;
     m_exportMap := ∅; m_exportNext := 0;
     m_fdps := replicate 31 NULL;
     m_fdFree := [];
     m_fdFreeMct := iota 1 30 |}.

Definition plusargs : list string := ["+define+FOO=1"; "+trace"]%string.

(** The same export name registered twice. *)
Definition exportInsert_twice (namep : string) : M (Z * Z) :=
  first ← exportInsert namep;
  second ← exportInsert namep;
  mret (first, second).

(** An export name registered, then looked up. *)
Definition exportInsert_then_Find (namep : string) : M (Z * Z) :=
  inserted ← exportInsert namep;
  found ← exportFind namep;
  mret (inserted, found).

(** A native [fopen] that always succeeds with one stream, and one
    that always fails. *)
Definition fopen_ok (stream : N) (filenamep modep : string) : N := stream.
Definition fopen_fails (filenamep modep : string) : N := NULL.

(** A channel opened, closed, and closed once more. *)
Definition mcd_closed_twice (filenamep : string) : M N :=
  h ← fdNewMcd (fopen_ok 77) filenamep;
  fdClose h;;
  fdClose h;;
  mret h.

(** A thread's queue with nothing staged. *)
Definition idle_thread : VerilatedThreadMsgQueue.t :=
  VerilatedThreadMsgQueue.Build [] 0 [].

(** A registry with two scopes and user data attached to each. *)
Definition top : VerilatedScope.t := VerilatedScope.Build 4096 "TOP".
Definition sub : VerilatedScope.t := VerilatedScope.Build 8192 "TOP.sub".
Definition two_scopes : VerilatedImp.t :=
  {| m_argVec := []; m_argVecLoaded := false;
     m_userMap := {[ (4096, 1) := 11; (4096, 2) := 12; (8192, 1) := 21 ]};
     m_nameMap := {[ "TOP"%string := 4096; "TOP.sub"%string := 8192 ]};
     m_exportMap := ∅; m_exportNext := 0;
     m_fdps := replicate 31 NULL;
     m_fdFree := [];
     m_fdFreeMct := iota 1 30 |}.

(** A second scope object that bears the name of [top], and the registry
    after both were inserted: the second insert finds the name taken and
    does nothing. *)
Definition top_again : VerilatedScope.t := VerilatedScope.Build 12288 "TOP".
Definition same_name_inserted : VerilatedImp.t :=
  (run (scopeInsert top;; scopeInsert top_again) new).1.2.

End Examples.

(** ** Sequences of calls *)
Module Sequences.

(** Export names registered one after the other; the numbers returned. *)
Fixpoint exportInsert_all (names : list string) : VerilatedImp.M (list Z) :=
  match names with
  | [] => mret []
  | namep :: rest =>
      funcnum ← VerilatedImp.exportInsert namep;
      funcnums ← exportInsert_all rest;
      mret (funcnum :: funcnums)
  end.

(** Hierarchy edges added one after the other, as (parent, child). *)
Definition hierarchyAdd_all (edges : list (N * N)) (m_hierMap : gmap N (list N))
  : gmap N (list N) :=
  fold_left (fun m e => VerilatedImp.hierarchyAdd e.1 e.2 m) edges m_hierMap.

(** A thread's queue with its staged messages gone and its counter
    lowered once for each. *)
Definition flushed (s : VerilatedThreadMsgQueue.t) : VerilatedThreadMsgQueue.t :=
  {| VerilatedThreadMsgQueue.m_queue := [];
     VerilatedThreadMsgQueue.endOfEvalReqd :=
       (VerilatedThreadMsgQueue.endOfEvalReqd s
        - Z.of_nat (length (VerilatedThreadMsgQueue.m_queue s)))%Z;
     VerilatedThreadMsgQueue.ran := VerilatedThreadMsgQueue.ran s |}.

(** The threads of a pass flush one after the other into the pass
    queue. *)
Fixpoint flush_all (threads : list VerilatedThreadMsgQueue.t)
    (evalMsgQ : VerilatedEvalMsgQueue.t)
  : list VerilatedThreadMsgQueue.t * VerilatedEvalMsgQueue.t :=
  match threads with
  | [] => ([], evalMsgQ)
  | s :: rest =>
      let '(s', q') := VerilatedThreadMsgQueue.flush s evalMsgQ in
      let '(rest', q'') := flush_all rest q' in
      (s' :: rest', q'')
  end.

End Sequences.

(** ** Conditions the registry keeps *)
Module Inv.

(** The export map: the counter is not negative, every recorded number
    lies below it, and no two names share a number. *)
Definition exports (s : VerilatedImp.t) : Prop :=
  (0 <= VerilatedImp.m_exportNext s)%Z
  /\ (forall namep funcnum,
        VerilatedImp.m_exportMap s !! namep = Some funcnum ->
        (0 <= funcnum < VerilatedImp.m_exportNext s)%Z)
  /\ (forall name1 name2 funcnum,
        VerilatedImp.m_exportMap s !! name1 = Some funcnum ->
        VerilatedImp.m_exportMap s !! name2 = Some funcnum ->
        name1 = name2).

(** The file table: the 31 slots of the constructor are there, every
    free descriptor names a slot of the table, and every free channel
    lies below 31. *)
Definition files (s : VerilatedImp.t) : Prop :=
  (31 <= length (VerilatedImp.m_fdps s))%nat
  /\ Forall (fun idx => (N.to_nat idx < length (VerilatedImp.m_fdps s))%nat)
       (VerilatedImp.m_fdFree s)
  /\ Forall (fun idx => idx < 31) (VerilatedImp.m_fdFreeMct s).

(** The streams a channel mask selects from a table, lowest bit first:
    the entries of the slots below 31 whose bit is set. *)
Definition channels (fdps : list N) (fdi : N) : list N :=
  omap (fun i => if N.testbit fdi (N.of_nat i) then fdps !! i else None)
       (seq 0 31).

End Inv.

(** ** Further concrete inputs *)
Module MoreExamples.

(** Two worker threads with staged messages. *)
Definition worker1 : VerilatedThreadMsgQueue.t :=
  VerilatedThreadMsgQueue.Build
    [VerilatedMsg.Build 5 0%nat; VerilatedMsg.Build 3 1%nat] 2 [].
Definition worker2 : VerilatedThreadMsgQueue.t :=
  VerilatedThreadMsgQueue.Build [VerilatedMsg.Build 4 2%nat] 1 [].

(** The registry after one export name was registered. *)
Definition one_export : VerilatedImp.t :=
  (VerilatedImp.run (VerilatedImp.exportInsert "dpi_f") VerilatedImp.new).1.2.

(** The registry after two channels were opened: slot 30 holds stream
    71 and slot 29 holds stream 72. *)
Definition two_channels : VerilatedImp.t :=
  (VerilatedImp.run
     (VerilatedImp.fdNewMcd (Examples.fopen_ok 71) "a.log";;
      VerilatedImp.fdNewMcd (Examples.fopen_ok 72) "b.log")
     VerilatedImp.new).1.2.

(** A native [ftell] and [fseek] with answers that tell the streams
    apart. *)
Definition ftell_stub (fp : N) : Z := (Z.of_N fp * 100)%Z.
Definition fseek_stub (fp : N) (offset : Z) (origin : Z) : Z := 0%Z.

End MoreExamples.

(** * Properties *)

(** ** The cross-thread queue *)

Section EvalQueue.

Import VerilatedEvalMsgQueue.

(** [insert] adds the message and nothing else, and keeps the queue in
    ascending order. *)
Lemma insert_Permutation msg q : multiset.insert msg q ≡ₚ msg :: q.
Proof.
  induction q as [|x q IH]; simpl; [done|].
  destruct (VerilatedMsg.Cmp msg x); [done|].
  rewrite IH. apply Permutation_swap.
Qed.

Lemma insert_StronglySorted msg q :
  StronglySorted VerilatedMsg.le q ->
  StronglySorted VerilatedMsg.le (multiset.insert msg q).
Proof.
  induction 1 as [|x q Hq IH Hx]; simpl.
  - repeat constructor.
  - unfold VerilatedMsg.Cmp.
    destruct (N.ltb_spec (VerilatedMsg.mtaskId msg) (VerilatedMsg.mtaskId x))
      as [Hlt|Hge].
    + constructor; [by constructor|].
      constructor; [unfold VerilatedMsg.le; lia|].
      eapply Forall_impl; [exact Hx|].
      intros y Hy. unfold VerilatedMsg.le in *. lia.
    + constructor; [exact IH|].
      rewrite insert_Permutation. by constructor.
Qed.

Lemma post_all_Permutation msgs q :
  m_queue (post_all msgs q) ≡ₚ m_queue q ++ msgs.
Proof.
  revert q. induction msgs as [|msg msgs IH]; intros q; simpl.
  - by rewrite app_nil_r.
  - rewrite IH. simpl. rewrite insert_Permutation.
    apply Permutation_middle.
Qed.

Lemma post_all_StronglySorted msgs q :
  StronglySorted VerilatedMsg.le (m_queue q) ->
  StronglySorted VerilatedMsg.le (m_queue (post_all msgs q)).
Proof.
  revert q. induction msgs as [|msg msgs IH]; intros q Hq; simpl; [done|].
  apply IH. simpl. by apply insert_StronglySorted.
Qed.

Lemma process_loop_drains items :
  forall fuel ran,
    N.of_nat (length items) < uint64_modulus ->
    (length items <= fuel)%nat ->
    process_loop fuel
      {| m_depth := N.of_nat (length items); m_queue := items |} ran
    = Drained new (ran ++ items).
Proof.
  induction items as [|msg items IH]; intros fuel ran Hlen Hfuel.
  - destruct fuel; simpl; by rewrite app_nil_r.
  - destruct fuel as [|fuel]; [simpl in Hfuel; lia|].
    cbn [process_loop m_depth m_queue length].
    destruct (N.eqb_spec (N.of_nat (S (length items))) 0) as [H0|_]; [lia|].
    replace (uint64_decr (N.of_nat (S (length items))))
      with (N.of_nat (length items)).
    + rewrite IH; [|simpl in Hlen; lia|simpl in Hfuel; lia].
      by rewrite <- app_assoc.
    + unfold uint64_decr, uint64_modulus in *. simpl in Hlen.
      replace (N.of_nat (S (length items)) + 2 ^ 64 - 1)
        with (N.of_nat (length items) + 1 * 2 ^ 64) by lia.
      rewrite N.Div0.mod_add. rewrite N.mod_small; lia.
Qed.

Lemma post_all_depth msgs :
  forall q,
    m_depth q + N.of_nat (length msgs) < uint64_modulus ->
    m_depth (post_all msgs q) = m_depth q + N.of_nat (length msgs).
Proof.
  induction msgs as [|msg msgs IH]; intros q Hlen; simpl.
  - lia.
  - rewrite IH; simpl in *.
    + unfold uint64_decr, uint64_incr, uint64_modulus in *.
      rewrite N.mod_small; lia.
    + unfold uint64_decr, uint64_incr, uint64_modulus in *.
      rewrite N.mod_small; lia.
Qed.

(** After any sequence of posts that the depth counter can count,
    [process] returns having run the queue front to back. *)
Lemma process_after_posts msgs :
  N.of_nat (length msgs) < uint64_modulus ->
  process (post_all msgs new) = Drained new (m_queue (post_all msgs new)).
Proof.
  intros Hlen.
  pose proof (post_all_Permutation msgs new) as Hperm. simpl in Hperm.
  assert (Hdepth : m_depth (post_all msgs new)
                   = N.of_nat (length (m_queue (post_all msgs new)))).
  { rewrite Hperm. rewrite post_all_depth; simpl; lia. }
  unfold process. destruct (post_all msgs new) as [d items].
  simpl in *. subst d.
  rewrite process_loop_drains; [done| |lia]. by rewrite Hperm.
Qed.

End EvalQueue.

(** A run of the queue: four posts arriving out of order, two of them from
    the same mtask, are executed by ascending mtask identifier, the two
    equal ones in their order of arrival. *)
Example process_example :
  let m := VerilatedMsg.Build in
  VerilatedEvalMsgQueue.process
    (VerilatedEvalMsgQueue.post_all [m 3 0%nat; m 1 1%nat; m 2 2%nat; m 1 3%nat]
       VerilatedEvalMsgQueue.new)
  = VerilatedEvalMsgQueue.Drained VerilatedEvalMsgQueue.new
      [m 1 1%nat; m 1 3%nat; m 2 2%nat; m 3 0%nat].
Proof. reflexivity. Qed.

(** C1.  Whatever messages are posted into one eval queue, in whatever
    order (fewer than 2^64 of them, the range of the depth counter), the
    following [process] returns with the queue drained, has run a
    permutation of the posted messages (each one exactly once), and has run
    them in non-decreasing order of mtask identifier. *)
Theorem process_runs_each_post_once_ascending (msgs : list VerilatedMsg.t) :
  N.of_nat (length msgs) < uint64_modulus ->
  exists ran,
    VerilatedEvalMsgQueue.process
      (VerilatedEvalMsgQueue.post_all msgs VerilatedEvalMsgQueue.new)
    = VerilatedEvalMsgQueue.Drained VerilatedEvalMsgQueue.new ran
    /\ ran ≡ₚ msgs
    /\ Sorted VerilatedMsg.le ran.
Proof.
  intros Hlen.
  exists (VerilatedEvalMsgQueue.m_queue
            (VerilatedEvalMsgQueue.post_all msgs VerilatedEvalMsgQueue.new)).
  split; [|split].
  - by apply process_after_posts.
  - by rewrite post_all_Permutation.
  - apply StronglySorted_Sorted, post_all_StronglySorted. constructor.
Qed.

Lemma process_runs_each_post_once_ascending_witness :
  let msgs := [VerilatedMsg.Build 7 0%nat; VerilatedMsg.Build 2 1%nat;
               VerilatedMsg.Build 7 2%nat; VerilatedMsg.Build 1 3%nat] in
  exists ran,
    VerilatedEvalMsgQueue.process
      (VerilatedEvalMsgQueue.post_all msgs VerilatedEvalMsgQueue.new)
    = VerilatedEvalMsgQueue.Drained VerilatedEvalMsgQueue.new ran
    /\ ran ≡ₚ msgs
    /\ Sorted VerilatedMsg.le ran.
Proof.
  intros msgs. apply (process_runs_each_post_once_ascending msgs).
  vm_compute. reflexivity.
Defined.

(** The order of arrival does not show in the mtask identifiers of the
    run: two arrival orders of the same messages are run with the same
    sequence of identifiers. *)
Lemma process_order_of_arrival_irrelevant (msgs msgs' : list VerilatedMsg.t) :
  msgs ≡ₚ msgs' ->
  N.of_nat (length msgs) < uint64_modulus ->
  exists ran ran',
    VerilatedEvalMsgQueue.process
      (VerilatedEvalMsgQueue.post_all msgs VerilatedEvalMsgQueue.new)
    = VerilatedEvalMsgQueue.Drained VerilatedEvalMsgQueue.new ran
    /\ VerilatedEvalMsgQueue.process
         (VerilatedEvalMsgQueue.post_all msgs' VerilatedEvalMsgQueue.new)
       = VerilatedEvalMsgQueue.Drained VerilatedEvalMsgQueue.new ran'
    /\ VerilatedMsg.mtaskId <$> ran = VerilatedMsg.mtaskId <$> ran'.
Proof.
  intros Hperm Hlen. eexists _, _.
  split; [by apply process_after_posts|].
  split; [apply process_after_posts; by rewrite <- Hperm|].
  apply (Sorted_unique N.le).
  - apply (Sorted_fmap _ VerilatedMsg.le); [done|].
    apply StronglySorted_Sorted, post_all_StronglySorted. constructor.
  - apply (Sorted_fmap _ VerilatedMsg.le); [done|].
    apply StronglySorted_Sorted, post_all_StronglySorted. constructor.
  - apply fmap_Permutation. rewrite !post_all_Permutation. by simpl.
Qed.

(** ** The thread-local queue *)

Section ThreadQueue.

Import VerilatedThreadMsgQueue.

Lemma flush_loop_spec staged :
  forall c evalMsgQ,
    flush_loop staged c evalMsgQ
    = ([], (c - Z.of_nat (length staged))%Z,
       VerilatedEvalMsgQueue.post_all staged evalMsgQ).
Proof.
  induction staged as [|front rest IH]; intros c q; simpl.
  - do 2 f_equal. lia.
  - rewrite IH. unfold endOfEvalReqdDec. do 2 f_equal. lia.
Qed.

Lemma flush_spec s evalMsgQ :
  flush s evalMsgQ
  = ({| m_queue := [];
        endOfEvalReqd := (endOfEvalReqd s - Z.of_nat (length (m_queue s)))%Z;
        ran := ran s |},
     VerilatedEvalMsgQueue.post_all (m_queue s) evalMsgQ).
Proof. unfold flush. by rewrite flush_loop_spec. Qed.

(** A post made inside an mtask is staged behind the earlier ones. *)
Lemma post_in_mtask cur msg s :
  cur ≠ 0 ->
  post cur msg s
  = {| m_queue := m_queue s ++ [msg];
       endOfEvalReqd := (endOfEvalReqd s + 1)%Z;
       ran := ran s |}.
Proof. intros H. unfold post. by destruct (N.eqb_spec cur 0). Qed.

(** A post made outside any mtask runs the message at once. *)
Lemma post_outside_mtask msg s :
  post 0 msg s
  = {| m_queue := m_queue s; endOfEvalReqd := endOfEvalReqd s;
       ran := ran s ++ [msg] |}.
Proof. reflexivity. Qed.

(** A sequence of posts stages the messages posted inside an mtask, in
    order, and runs the others at once. *)
Lemma post_calls_spec calls :
  forall s,
    post_calls calls s
    = {| m_queue := m_queue s ++ Calls.staged calls;
         endOfEvalReqd :=
           (endOfEvalReqd s + Z.of_nat (length (Calls.staged calls)))%Z;
         ran := ran s ++ Calls.outside calls |}.
Proof.
  induction calls as [|[cur msg] calls IH]; intros s.
  - destruct s; cbn. f_equal; [by rewrite app_nil_r | lia | by rewrite app_nil_r].
  - unfold post_calls in *. cbn [fold_left fst snd]. rewrite IH.
    unfold Calls.staged, Calls.outside. cbn [List.filter fst].
    destruct (N.eqb_spec cur 0) as [->|Hcur].
    + rewrite post_outside_mtask. cbn. f_equal. by rewrite <- app_assoc.
    + rewrite post_in_mtask by done. cbn.
      f_equal; [by rewrite <- app_assoc | lia].
Qed.

End ThreadQueue.

(** A post made outside any mtask never reaches the target queue: the
    message is run by [post] itself and the following [flush] has nothing
    to move. *)
Lemma flush_misses_post_outside_mtask :
  ~ AsStated.flush_moves_all_posted Examples.idle_thread
      VerilatedEvalMsgQueue.new [(0, VerilatedMsg.Build 0 0%nat)].
Proof. unfold AsStated.flush_moves_all_posted. cbn. discriminate. Qed.

(** Where every post is made from inside an mtask, all the posted
    actions are moved. *)
Lemma flush_moves_all_posted_in_mtasks
    (s : VerilatedThreadMsgQueue.t) (q : VerilatedEvalMsgQueue.t)
    (calls : list (N * VerilatedMsg.t)) :
  VerilatedThreadMsgQueue.m_queue s = [] ->
  Forall (fun c => c.1 ≠ 0) calls ->
  AsStated.flush_moves_all_posted s q calls.
Proof.
  intros Hempty Hall.
  assert (Hstaged : Calls.staged calls = map snd calls).
  { unfold Calls.staged. induction Hall as [|[cur msg] calls Hcur _ IH]; [done|].
    cbn [List.filter fst]. simpl in Hcur.
    destruct (N.eqb_spec cur 0); [done|]. cbn. by rewrite IH. }
  unfold AsStated.flush_moves_all_posted.
  rewrite flush_spec, post_calls_spec. cbn. rewrite Hempty, Hstaged. cbn.
  by rewrite length_map.
Qed.

(** C9, as the code has it.  Take a thread just after a flush and let it
    post any sequence of actions.  The ones posted outside any mtask are
    run by [post] at once.  The staging queue holds exactly the ones
    posted from inside an mtask, in the order posted; the next [flush]
    posts these to the target queue one by one in that order, so that
    the target holds what it held before together with all of them and
    nothing else; the pending-flush counter goes down by one per staged
    action, and the staging queue is left empty. *)
Theorem flush_moves_staged_in_fifo_order
    (s0 : VerilatedThreadMsgQueue.t) (q0 q : VerilatedEvalMsgQueue.t)
    (calls : list (N * VerilatedMsg.t)) :
  let s := (VerilatedThreadMsgQueue.flush s0 q0).1 in
  let s1 := VerilatedThreadMsgQueue.post_calls calls s in
  let msgs := Calls.staged calls in
  VerilatedThreadMsgQueue.m_queue s = []
  /\ VerilatedThreadMsgQueue.m_queue s1 = msgs
  /\ VerilatedThreadMsgQueue.ran s1
     = VerilatedThreadMsgQueue.ran s ++ Calls.outside calls
  /\ VerilatedThreadMsgQueue.flush s1 q
     = ({| VerilatedThreadMsgQueue.m_queue := [];
           VerilatedThreadMsgQueue.endOfEvalReqd :=
             (VerilatedThreadMsgQueue.endOfEvalReqd s1 - Z.of_nat (length msgs))%Z;
           VerilatedThreadMsgQueue.ran := VerilatedThreadMsgQueue.ran s1 |},
        VerilatedEvalMsgQueue.post_all msgs q)
  /\ VerilatedEvalMsgQueue.m_queue (VerilatedEvalMsgQueue.post_all msgs q)
     ≡ₚ VerilatedEvalMsgQueue.m_queue q ++ msgs.
Proof.
  intros s s1 msgs.
  assert (Hs : VerilatedThreadMsgQueue.m_queue s = []).
  { subst s. by rewrite flush_spec. }
  assert (Hs1 : VerilatedThreadMsgQueue.m_queue s1 = msgs).
  { subst s1. rewrite post_calls_spec. cbn. by rewrite Hs. }
  split; [done|]. split; [done|]. split; [|split].
  - subst s1. by rewrite post_calls_spec.
  - rewrite flush_spec. by rewrite Hs1.
  - apply post_all_Permutation.
Qed.

(** A thread that posts from mtask 5, from outside any mtask, from mtask
    3 and from mtask 5 again: three messages are staged and flushed, the
    one posted outside has been run by [post]. *)
Example flush_example :
  let m := VerilatedMsg.Build in
  let calls := [(5, m 5 1%nat); (0, m 0 9%nat); (3, m 3 2%nat); (5, m 5 3%nat)] in
  VerilatedThreadMsgQueue.flush
    (VerilatedThreadMsgQueue.post_calls calls Examples.idle_thread)
    VerilatedEvalMsgQueue.new
  = (VerilatedThreadMsgQueue.Build [] 0 [m 0 9%nat],
     VerilatedEvalMsgQueue.Build 3 [m 3 2%nat; m 5 1%nat; m 5 3%nat]).
Proof. reflexivity. Qed.

(** ** Plus-argument lookup *)

Section PlusArgsFacts.

Import CString.

Lemma N_of_ascii_inj a b : N_of_ascii a = N_of_ascii b -> a = b.
Proof.
  intros H. rewrite <- (ascii_N_embedding a), <- (ascii_N_embedding b).
  by rewrite H.
Qed.

Lemma char_diff_nonzero a b :
  a ≠ b -> (0 =? Z.of_N (N_of_ascii a) - Z.of_N (N_of_ascii b))%Z = false.
Proof.
  intros Hne. apply Z.eqb_neq. intros H. apply Hne, N_of_ascii_inj. lia.
Qed.

(** [strncmp] over [strlen] characters of the prefix is zero exactly when
    the other string starts with the characters of the prefix. *)
Lemma strncmp_strlen_prefix p :
  forall s, (0 =? strncmp p s (strlen p))%Z = String.prefix (chars p) s.
Proof.
  induction p as [|c p IH]; intros s.
  - by destruct s.
  - cbn [strlen chars].
    destruct (Ascii.eqb_spec c NUL) as [->|Hnul]; [by destruct s|].
    cbn [strncmp front next].
    destruct s as [|d s]; cbn [front next String.prefix].
    + destruct (Ascii.eqb_spec c NUL) as [->|_]; [done|].
      by apply char_diff_nonzero.
    + destruct (Ascii.eqb_spec c d) as [->|Hcd].
      * destruct (Ascii.eqb_spec d NUL) as [->|_]; [done|].
        destruct (ascii_dec d d); [by apply IH | done].
      * destruct (ascii_dec c d); [done|].
        by apply char_diff_nonzero.
Qed.

Lemma argPlusMatch_scan_first_match p args :
  VerilatedImp.argPlusMatch_scan p (strlen p) args
  = PlusArgs.first_match (chars p) args.
Proof.
  unfold PlusArgs.first_match.
  induction args as [|it rest IH]; [done|].
  cbn [VerilatedImp.argPlusMatch_scan List.find].
  destruct it as [|c it]; cbn [front next PlusArgs.plus_match]; [done|].
  destruct (Ascii.eqb c "+"); cbn [andb]; [|done].
  rewrite strncmp_strlen_prefix.
  by destruct (String.prefix (chars p) it).
Qed.

End PlusArgsFacts.

(** Unfold a registry call down to the state transformer it denotes. *)
Ltac run_unfold :=
  unfold VerilatedImp.run, VerilatedImp.VerilatedLockGuard;
  unfold mbind, mret, VerilatedImp.M_bind, VerilatedImp.M_ret;
  cbn.

(** How [argPlusMatch] runs once the argument list is loaded. *)
Lemma argPlusMatch_loaded (s : VerilatedImp.t) (prefixp : string) :
  VerilatedImp.m_argVecLoaded s = true ->
  VerilatedImp.run (VerilatedImp.argPlusMatch prefixp) s
  = (VerilatedImp.Returned
       (VerilatedImp.argPlusMatch_scan prefixp (CString.strlen prefixp)
          (VerilatedImp.m_argVec s)),
     s, [EvLock m_argMutex; EvUnlock m_argMutex]).
Proof.
  intros Hloaded. unfold VerilatedImp.argPlusMatch. run_unfold.
  rewrite Hloaded. by destruct s.
Qed.

(** How [argPlusMatch] runs before any argument list is loaded. *)
Lemma argPlusMatch_not_loaded (s : VerilatedImp.t) (prefixp : string) :
  VerilatedImp.m_argVecLoaded s = false ->
  VerilatedImp.run (VerilatedImp.argPlusMatch prefixp) s
  = (VerilatedImp.Halted, VerilatedImp.set_argVecLoaded true s,
     [EvLock m_argMutex; EvFatal VerilatedImp.argPlusMatch_msg]).
Proof.
  intros Hloaded. unfold VerilatedImp.argPlusMatch. run_unfold.
  rewrite Hloaded. by destruct s.
Qed.

(** The lookups of the description: the first token with the prefix, and
    nothing for a prefix no token has. *)
Example argPlusMatch_examples :
  (VerilatedImp.run (VerilatedImp.argPlusMatch "define+")
     (Examples.loaded Examples.plusargs)).1.1
  = VerilatedImp.Returned "+define+FOO=1"%string
  /\ (VerilatedImp.run (VerilatedImp.argPlusMatch "nomatch")
        (Examples.loaded Examples.plusargs)).1.1
     = VerilatedImp.Returned ""%string.
Proof. split; reflexivity. Qed.

(** C5.  Once the argument list is loaded, [argPlusMatch] of a prefix
    returns the first stored token that begins with '+' and goes on with
    the characters of the prefix, and the empty string when there is
    none; the registry is left as it was. *)
Theorem argPlusMatch_returns_first_match
    (s : VerilatedImp.t) (prefixp : string) :
  VerilatedImp.m_argVecLoaded s = true ->
  VerilatedImp.run (VerilatedImp.argPlusMatch prefixp) s
  = (VerilatedImp.Returned
       (PlusArgs.first_match (CString.chars prefixp) (VerilatedImp.m_argVec s)),
     s, [EvLock m_argMutex; EvUnlock m_argMutex]).
Proof.
  intros Hloaded. rewrite argPlusMatch_loaded by done.
  by rewrite argPlusMatch_scan_first_match.
Qed.

Lemma argPlusMatch_returns_first_match_witness :
  VerilatedImp.run (VerilatedImp.argPlusMatch "define+")
    (Examples.loaded Examples.plusargs)
  = (VerilatedImp.Returned "+define+FOO=1"%string,
     Examples.loaded Examples.plusargs,
     [EvLock m_argMutex; EvUnlock m_argMutex]).
Proof.
  apply (argPlusMatch_returns_first_match
           (Examples.loaded Examples.plusargs) "define+"); reflexivity.
Defined.

(** C6.  Before the argument list has ever been loaded, [argPlusMatch] of
    any prefix ends in the fatal diagnostic and does not return; the
    loaded flag is raised on the way, and nothing else changes. *)
Theorem argPlusMatch_before_load_is_fatal
    (s : VerilatedImp.t) (prefixp : string) :
  VerilatedImp.m_argVecLoaded s = false ->
  VerilatedImp.run (VerilatedImp.argPlusMatch prefixp) s
  = (VerilatedImp.Halted, VerilatedImp.set_argVecLoaded true s,
     [EvLock m_argMutex; EvFatal VerilatedImp.argPlusMatch_msg]).
Proof. apply argPlusMatch_not_loaded. Qed.

Lemma argPlusMatch_before_load_is_fatal_witness :
  VerilatedImp.run (VerilatedImp.argPlusMatch "define+") VerilatedImp.new
  = (VerilatedImp.Halted,
     VerilatedImp.set_argVecLoaded true VerilatedImp.new,
     [EvLock m_argMutex; EvFatal VerilatedImp.argPlusMatch_msg]).
Proof.
  apply (argPlusMatch_before_load_is_fatal VerilatedImp.new "define+").
  reflexivity.
Defined.

(** ** Export names *)

(** A name not yet in the map: the map records [m_exportNext], the call
    returns the number after it, and [m_exportNext] has moved twice. *)
Lemma exportInsert_fresh (s : VerilatedImp.t) (namep : string) :
  VerilatedImp.m_exportMap s !! namep = None ->
  VerilatedImp.run (VerilatedImp.exportInsert namep) s
  = (VerilatedImp.Returned (int_incr (VerilatedImp.m_exportNext s)),
     VerilatedImp.set_exportNext
       (int_incr (int_incr (VerilatedImp.m_exportNext s)))
       (VerilatedImp.set_exportMap
          (<[namep := VerilatedImp.m_exportNext s]> (VerilatedImp.m_exportMap s)) s),
     [EvLock m_exportMutex; EvUnlock m_exportMutex]).
Proof.
  intros Hfresh. unfold VerilatedImp.exportInsert. run_unfold.
  rewrite Hfresh. reflexivity.
Qed.

(** A name already in the map: the recorded number, nothing changed. *)
Lemma exportInsert_known (s : VerilatedImp.t) (namep : string) (funcnum : Z) :
  VerilatedImp.m_exportMap s !! namep = Some funcnum ->
  VerilatedImp.run (VerilatedImp.exportInsert namep) s
  = (VerilatedImp.Returned funcnum, s,
     [EvLock m_exportMutex; EvUnlock m_exportMutex]).
Proof.
  intros Hknown. unfold VerilatedImp.exportInsert. run_unfold.
  rewrite Hknown. by destruct s.
Qed.

Lemma exportFind_known (s : VerilatedImp.t) (namep : string) (funcnum : Z) :
  VerilatedImp.m_exportMap s !! namep = Some funcnum ->
  VerilatedImp.run (VerilatedImp.exportFind namep) s
  = (VerilatedImp.Returned funcnum, s,
     [EvLock m_exportMutex; EvUnlock m_exportMutex]).
Proof.
  intros Hknown. unfold VerilatedImp.exportFind. run_unfold.
  rewrite Hknown. by destruct s.
Qed.

(** A name that is not in the map ends [exportFind] in the fatal
    diagnostic. *)
Lemma exportFind_unknown (s : VerilatedImp.t) (namep : string) :
  VerilatedImp.m_exportMap s !! namep = None ->
  VerilatedImp.run (VerilatedImp.exportFind namep) s
  = (VerilatedImp.Halted, s,
     [EvLock m_exportMutex; EvFatal (VerilatedImp.exportFind_msg namep)]).
Proof.
  intros Hnone. unfold VerilatedImp.exportFind. run_unfold.
  rewrite Hnone. by destruct s.
Qed.

Lemma int_incr_neq (z : Z) : int_incr z ≠ z.
Proof.
  unfold int_incr, int_wrap. intros H.
  pose proof (Z.mod_pos_bound (z + 1 + 2 ^ 31) (2 ^ 32) ltac:(lia)) as Hb.
  assert (Hm : ((z + 1 + 2 ^ 31) mod 2 ^ 32 = z + 2 ^ 31)%Z) by lia.
  pose proof (Z.div_mod (z + 1 + 2 ^ 31) (2 ^ 32) ltac:(lia)) as Hd.
  lia.
Qed.

(** What the first call returns is never what the map recorded. *)
Lemma exportInsert_fresh_returns_other_than_recorded
    (s : VerilatedImp.t) (namep : string) :
  VerilatedImp.m_exportMap s !! namep = None ->
  exists returned recorded s',
    VerilatedImp.run (VerilatedImp.exportInsert namep) s
    = (VerilatedImp.Returned returned, s',
       [EvLock m_exportMutex; EvUnlock m_exportMutex])
    /\ VerilatedImp.m_exportMap s' !! namep = Some recorded
    /\ returned ≠ recorded.
Proof.
  intros Hfresh. eexists _, _, _. split; [by apply exportInsert_fresh|].
  split; [apply lookup_insert_eq | apply int_incr_neq].
Qed.

(** C2.  On a fresh registry the first [exportInsert] of a name returns 1
    and the second returns 0: the map records the number 0, while the
    first call returns the counter after a further increment. *)
Theorem exportInsert_twice_returns_1_then_0 :
  (VerilatedImp.run (Examples.exportInsert_twice "dpi_f") VerilatedImp.new).1.1
  = VerilatedImp.Returned (1, 0)%Z.
Proof. reflexivity. Qed.

(** C3.  On a fresh registry [exportInsert] of a name returns 1 and the
    [exportFind] of the same name that follows returns 0. *)
Theorem exportFind_after_exportInsert_returns_0_not_1 :
  (VerilatedImp.run (Examples.exportInsert_then_Find "dpi_f") VerilatedImp.new).1.1
  = VerilatedImp.Returned (1, 0)%Z.
Proof. reflexivity. Qed.

(** ** Locks and the fatal diagnostic *)

(** On a fresh registry [argPlusMatch] emits its fatal diagnostic with
    the argument mutex held. *)
Lemma argPlusMatch_fatal_under_lock :
  ~ Trace.fatal_outside_locks
      (VerilatedImp.run (VerilatedImp.argPlusMatch "define+") VerilatedImp.new).2.
Proof.
  rewrite argPlusMatch_not_loaded by reflexivity.
  unfold Trace.fatal_outside_locks. cbn. intros H.
  apply Forall_cons in H as [H _]. discriminate H.
Qed.

(** C4, as the code has it.  [argPlusMatch] and [exportFind] take their
    mutex on entry and keep it for the whole body: when either emits the
    fatal diagnostic, exactly that one mutex is held; a call that does not
    reach the fatal path emits no diagnostic. *)
Theorem fatal_is_emitted_under_own_lock :
  (forall (s : VerilatedImp.t) (prefixp : string),
     Trace.locks_at_fatal []
       (VerilatedImp.run (VerilatedImp.argPlusMatch prefixp) s).2
     = if VerilatedImp.m_argVecLoaded s then [] else [[m_argMutex]])
  /\ (forall (s : VerilatedImp.t) (namep : string),
        Trace.locks_at_fatal []
          (VerilatedImp.run (VerilatedImp.exportFind namep) s).2
        = match VerilatedImp.m_exportMap s !! namep with
          | Some _ => []
          | None => [[m_exportMutex]]
          end).
Proof.
  split.
  - intros s prefixp. destruct (VerilatedImp.m_argVecLoaded s) eqn:Hloaded.
    + by rewrite argPlusMatch_loaded.
    + by rewrite argPlusMatch_not_loaded.
  - intros s namep.
    destruct (VerilatedImp.m_exportMap s !! namep) as [funcnum|] eqn:Hfind.
    + by rewrite (exportFind_known _ _ funcnum).
    + by rewrite exportFind_unknown.
Qed.

(** ** Scopes and user data *)

Section UserErase.

Import VerilatedImp.

Lemma userEraseScope_loop_None (scopep : N) entries :
  forall (m : gmap (N * N) N) key,
    m !! key = None ->
    userEraseScope_loop scopep entries m !! key = None.
Proof.
  induction entries as [|it entries IH]; intros m key Hnone; [done|].
  cbn [userEraseScope_loop fold_left]. apply IH.
  destruct (it.1.1 =? scopep); [|done].
  apply lookup_delete_None. by right.
Qed.

Lemma userEraseScope_loop_other (scopep : N) entries :
  forall (m : gmap (N * N) N) key,
    key.1 ≠ scopep ->
    userEraseScope_loop scopep entries m !! key = m !! key.
Proof.
  induction entries as [|it entries IH]; intros m key Hother; [done|].
  cbn [userEraseScope_loop fold_left]. unfold userEraseScope_loop in IH.
  rewrite IH by done.
  destruct (N.eqb_spec it.1.1 scopep) as [Heq|]; [|done].
  apply lookup_delete_ne. intros Hk. apply Hother. by rewrite <- Hk.
Qed.

Lemma userEraseScope_loop_erased (scopep : N) entries :
  forall (m : gmap (N * N) N) key userData,
    (key, userData) ∈ entries ->
    key.1 = scopep ->
    userEraseScope_loop scopep entries m !! key = None.
Proof.
  induction entries as [|it entries IH]; intros m key userData Hin Hkey.
  - by apply elem_of_nil in Hin.
  - cbn [userEraseScope_loop fold_left].
    apply elem_of_cons in Hin as [<-|Hin].
    + cbn [fst]. rewrite Hkey, N.eqb_refl.
      apply userEraseScope_loop_None, lookup_delete_eq.
    + by apply (IH _ _ userData).
Qed.

(** What the erase loop leaves when run over the entries of the map. *)
Lemma userEraseScope_loop_lookup (scopep : N) (m : gmap (N * N) N) (key : N * N) :
  userEraseScope_loop scopep (map_to_list m) m !! key
  = if decide (key.1 = scopep) then None else m !! key.
Proof.
  case_decide as Hkey.
  - destruct (m !! key) as [userData|] eqn:Hm.
    + apply (userEraseScope_loop_erased _ _ _ _ userData); [|done].
      by apply elem_of_map_to_list.
    + by apply userEraseScope_loop_None.
  - by apply userEraseScope_loop_other.
Qed.

Lemma scopeErase_run (s : t) (scope : VerilatedScope.t) :
  run (scopeErase scope) s
  = (Returned tt,
     set_nameMap (delete (VerilatedScope.name scope) (m_nameMap s))
       (set_userMap
          (userEraseScope_loop (VerilatedScope.scopep scope)
             (map_to_list (m_userMap s)) (m_userMap s)) s),
     [EvLock m_nameMutex; EvLock m_userMapMutex;
      EvUnlock m_userMapMutex; EvUnlock m_nameMutex]).
Proof.
  unfold scopeErase, userEraseScope. run_unfold.
  destruct (m_nameMap s !! VerilatedScope.name scope) eqn:Hname; cbn.
  - reflexivity.
  - rewrite delete_id by done. reflexivity.
Qed.

End UserErase.

(** A scope object whose name is already taken by another one is not
    entered by [scopeInsert]; its [scopeErase] then removes the entry of
    the scope that holds the name. *)
Lemma scopeErase_same_name_removes_other_entry :
  ~ AsStated.scopeErase_frame Examples.same_name_inserted Examples.top_again.
Proof.
  intros (_ & _ & _ & Hkept).
  specialize (Hkept "TOP"%string 4096).
  assert (H : (VerilatedImp.m_nameMap
                 (VerilatedImp.run (VerilatedImp.scopeErase Examples.top_again)
                    Examples.same_name_inserted).1.2
               !! "TOP"%string) = None) by reflexivity.
  rewrite Hkept in H; [discriminate H | discriminate | reflexivity].
Qed.

(** Where the entry under the scope's name is its own, or there is none,
    the name entries of all other scopes are kept as well. *)
Lemma scopeErase_frame_when_name_is_own
    (s : VerilatedImp.t) (scope : VerilatedScope.t) :
  AsStated.name_is_own s scope -> AsStated.scopeErase_frame s scope.
Proof.
  intros Hown. unfold AsStated.scopeErase_frame. rewrite scopeErase_run.
  cbn [fst snd VerilatedImp.m_nameMap VerilatedImp.m_userMap
       VerilatedImp.set_nameMap VerilatedImp.set_userMap].
  split; [apply lookup_delete_eq|].
  split.
  { intros userKey. rewrite userEraseScope_loop_lookup. by rewrite decide_True. }
  split.
  { intros scopep' userKey Hother. rewrite userEraseScope_loop_lookup.
    by rewrite decide_False. }
  intros namep scopep' Hother Hfound.
  destruct (decide (VerilatedScope.name scope = namep)) as [<-|Hname].
  - by apply Hown in Hfound.
  - by rewrite lookup_delete_ne.
Qed.

(** C7, as the code has it.  For every registry state and every scope,
    [scopeErase scope] returns with no entry left under the name of the
    scope (whichever scope that entry was bound to) and with no user-data
    entry left whose key starts with the scope; every user-data entry
    keyed by another scope, and every name-map entry under another name,
    is as it was, and so is the rest of the registry. *)
Theorem scopeErase_removes_by_name_and_scope
    (s : VerilatedImp.t) (scope : VerilatedScope.t) :
  exists s',
    VerilatedImp.run (VerilatedImp.scopeErase scope) s
    = (VerilatedImp.Returned tt, s',
       [EvLock m_nameMutex; EvLock m_userMapMutex;
        EvUnlock m_userMapMutex; EvUnlock m_nameMutex])
    /\ VerilatedImp.m_nameMap s' !! VerilatedScope.name scope = None
    /\ (forall userKey,
          VerilatedImp.m_userMap s' !! (VerilatedScope.scopep scope, userKey)
          = None)
    /\ (forall scopep' userKey,
          scopep' ≠ VerilatedScope.scopep scope ->
          VerilatedImp.m_userMap s' !! (scopep', userKey)
          = VerilatedImp.m_userMap s !! (scopep', userKey))
    /\ (forall namep,
          namep ≠ VerilatedScope.name scope ->
          VerilatedImp.m_nameMap s' !! namep
          = VerilatedImp.m_nameMap s !! namep)
    /\ s' = VerilatedImp.set_nameMap (VerilatedImp.m_nameMap s')
              (VerilatedImp.set_userMap (VerilatedImp.m_userMap s') s).
Proof.
  eexists. split; [apply scopeErase_run|].
  cbn [VerilatedImp.m_nameMap VerilatedImp.m_userMap
       VerilatedImp.set_nameMap VerilatedImp.set_userMap].
  split; [apply lookup_delete_eq|].
  split.
  { intros userKey. rewrite userEraseScope_loop_lookup.
    by rewrite decide_True. }
  split.
  { intros scopep' userKey Hother. rewrite userEraseScope_loop_lookup.
    by rewrite decide_False. }
  split.
  - intros namep Hname. by rewrite lookup_delete_ne.
  - reflexivity.
Qed.

(** The erase on the example registry, entry by entry: the scope TOP and
    its two user-data entries go, the scope TOP.sub keeps its own. *)
Example scopeErase_example :
  let s' := (VerilatedImp.run (VerilatedImp.scopeErase Examples.top)
               Examples.two_scopes).1.2 in
  VerilatedImp.m_nameMap s' = {[ "TOP.sub"%string := 8192 ]}
  /\ VerilatedImp.m_userMap s' = {[ (8192, 1) := 21 ]}.
Proof. split; apply map_eq; intros k; vm_compute; reflexivity. Qed.

(** ** The file table *)

Section FileTable.

Import VerilatedImp.

Lemma pop_back_snoc (rest : list N) (idx : N) :
  pop_back (rest ++ [idx]) = Some (idx, rest).
Proof. unfold pop_back. by rewrite last_snoc, removelast_last. Qed.

(** [fdNew] when the native open fails: the call is over before the
    table or its mutex is touched. *)
Lemma fdNew_open_fails fopen (s : t) (filenamep modep : string) :
  fopen filenamep modep = NULL ->
  run (fdNew fopen filenamep modep) s
  = (Returned 0, s, [EvFopen filenamep modep NULL]).
Proof.
  intros Hfail. unfold fdNew, native_fopen. run_unfold.
  rewrite Hfail. by destruct s.
Qed.

(** [fdNewMcd] when the native open fails: the slot has left the pool
    by then and stays out of it. *)
Lemma fdNewMcd_open_fails fopen (s : t) (filenamep : string)
    (rest : list N) (idx : N) :
  fopen filenamep "w"%string = NULL ->
  m_fdFreeMct s = rest ++ [idx] ->
  (N.to_nat idx < length (m_fdps s))%nat ->
  run (fdNewMcd fopen filenamep) s
  = (Returned 0,
     set_fdps (<[N.to_nat idx := NULL]> (m_fdps s)) (set_fdFreeMct rest s),
     [EvLock m_fdMutex; EvFopen filenamep "w" NULL; EvUnlock m_fdMutex]).
Proof.
  intros Hfail Hpool Hidx.
  unfold fdNewMcd, native_fopen, fdps_write, fdps_read. run_unfold.
  rewrite Hpool, pop_back_snoc. cbn. rewrite Hfail.
  rewrite decide_True by done. cbn.
  rewrite list_lookup_insert_eq by done. reflexivity.
Qed.

(** [fdNewMcd] on an empty pool: zero, and not even an open. *)
Lemma fdNewMcd_pool_empty fopen (s : t) (filenamep : string) :
  m_fdFreeMct s = [] ->
  run (fdNewMcd fopen filenamep) s
  = (Returned 0, s, [EvLock m_fdMutex; EvUnlock m_fdMutex]).
Proof.
  intros Hpool. unfold fdNewMcd. run_unfold.
  rewrite Hpool. cbn. by destruct s.
Qed.

End FileTable.

(** C10.  Each call makes one native open; let that open fail.  An
    [fdNew] whose open of the file in the given mode fails returns zero
    and the registry is what it was: no slot taken, free list and table
    untouched (the mutex is not even taken).  An [fdNewMcd] whose open of
    the file for writing fails, with a slot left in its pool, also
    returns zero, but the slot at the back of the pool has been popped
    and is not put back; the table entry of the slot has been written
    with the null result of the open. *)
Theorem fdNew_open_failure_is_atomic_fdNewMcd_is_not
    (fopen : string -> string -> N) (s : VerilatedImp.t)
    (filenamep modep : string) :
  (fopen filenamep modep = NULL ->
   VerilatedImp.run (VerilatedImp.fdNew fopen filenamep modep) s
   = (VerilatedImp.Returned 0, s, [EvFopen filenamep modep NULL]))
  /\ (fopen filenamep "w"%string = NULL ->
      forall rest idx,
        VerilatedImp.m_fdFreeMct s = rest ++ [idx] ->
        (N.to_nat idx < length (VerilatedImp.m_fdps s))%nat ->
        exists s',
          VerilatedImp.run (VerilatedImp.fdNewMcd fopen filenamep) s
          = (VerilatedImp.Returned 0, s',
             [EvLock m_fdMutex; EvFopen filenamep "w" NULL; EvUnlock m_fdMutex])
          /\ VerilatedImp.m_fdFreeMct s' = rest
          /\ VerilatedImp.m_fdps s'
             = <[N.to_nat idx := NULL]> (VerilatedImp.m_fdps s)
          /\ VerilatedImp.m_fdFree s' = VerilatedImp.m_fdFree s).
Proof.
  split.
  - intros Hfail. by apply fdNew_open_fails.
  - intros Hfail rest idx Hpool Hidx. eexists. split.
    + by apply fdNewMcd_open_fails.
    + done.
Qed.

Lemma fdNew_open_failure_is_atomic_fdNewMcd_is_not_witness :
  VerilatedImp.run
    (VerilatedImp.fdNew Examples.fopen_fails "missing.txt" "r") VerilatedImp.new
  = (VerilatedImp.Returned 0, VerilatedImp.new, [EvFopen "missing.txt" "r" NULL])
  /\ exists s',
       VerilatedImp.run
         (VerilatedImp.fdNewMcd Examples.fopen_fails "missing.txt")
         VerilatedImp.new
       = (VerilatedImp.Returned 0, s',
          [EvLock m_fdMutex; EvFopen "missing.txt" "w" NULL; EvUnlock m_fdMutex])
       /\ VerilatedImp.m_fdFreeMct s' = VerilatedImp.iota 1 29
       /\ VerilatedImp.m_fdps s'
          = <[N.to_nat 30 := NULL]> (VerilatedImp.m_fdps VerilatedImp.new)
       /\ VerilatedImp.m_fdFree s' = VerilatedImp.m_fdFree VerilatedImp.new.
Proof.
  destruct (fdNew_open_failure_is_atomic_fdNewMcd_is_not
              Examples.fopen_fails VerilatedImp.new "missing.txt" "r")
    as [Hnew Hmcd].
  split.
  - apply Hnew. reflexivity.
  - apply (Hmcd eq_refl (VerilatedImp.iota 1 29) 30).
    + reflexivity.
    + vm_compute. lia.
Defined.

Section FdClose.

Import VerilatedImp.

Lemma descriptor_bit_set (fdi : N) :
  N.testbit fdi 31 = true -> (N.land fdi (N.shiftl 1 31) =? 0) = false.
Proof.
  intros Hbit. apply N.eqb_neq. intros Hzero.
  assert (H : N.testbit (N.land fdi (N.shiftl 1 31)) 31 = true).
  { rewrite N.land_spec, Hbit. reflexivity. }
  rewrite Hzero in H. discriminate H.
Qed.


(** The multi-channel branch has no such check.  On a mask of one bit
    the loop walks up to that bit and there hands whatever the slot
    holds to the native close.  A stream is closed and the slot freed. *)
Lemma fdClose_mcd_single_bit (k : nat) :
  forall (left : nat) (i : N) (w : world) (fp : N),
    (k < left)%nat ->
    m_fdps (imp w) !! N.to_nat (i + N.of_nat k) = Some fp ->
    fp ≠ NULL ->
    fdClose_mcd left i (2 ^ N.of_nat k) w
    = (Returned tt,
       World
         (set_fdFreeMct (m_fdFreeMct (imp w) ++ [i + N.of_nat k])
            (set_fdps (<[N.to_nat (i + N.of_nat k) := NULL]> (m_fdps (imp w)))
               (imp w)))
         (trace w ++ [EvFclose fp])).
Proof.
  induction k as [|k IH]; intros left i w fp Hleft Hslot Hopen.
  - destruct left as [|left]; [lia|].
    replace (i + N.of_nat 0) with i in * by lia.
    cbn [fdClose_mcd]. change (2 ^ N.of_nat 0) with 1.
    change (1 =? 0) with false.
    change (N.land 1 (VL_MASK_I 1) =? 0) with false.
    change (N.shiftr 1 1) with 0. cbn [negb].
    destruct fp as [|stream]; [done|].
    unfold fdps_read, fdps_write, native_fclose.
    unfold mbind, mret, M_bind, M_ret. cbn.
    rewrite Hslot. cbn.
    rewrite decide_True by (by eapply lookup_lt_Some).
    cbn. by destruct left.
  - destruct left as [|left]; [lia|].
    cbn [fdClose_mcd].
    assert (Hpow : 2 ^ N.of_nat (S k) = 2 * 2 ^ N.of_nat k).
    { rewrite Nat2N.inj_succ. apply N.pow_succ_r'. }
    assert (Hpos : 2 ^ N.of_nat k ≠ 0) by (apply N.pow_nonzero; lia).
    destruct (N.eqb_spec (2 ^ N.of_nat (S k)) 0) as [H0|_]; [lia|].
    assert (Heven : N.land (2 ^ N.of_nat (S k)) (VL_MASK_I 1) = 0).
    { unfold VL_MASK_I. rewrite N.land_ones, Hpow.
      change (2 ^ 1) with 2. rewrite N.mul_comm. apply N.Div0.mod_mul. }
    rewrite Heven. cbn [N.eqb negb].
    assert (Hshift : N.shiftr (2 ^ N.of_nat (S k)) 1 = 2 ^ N.of_nat k).
    { rewrite N.shiftr_div_pow2, Hpow. change (2 ^ 1) with 2.
      rewrite N.mul_comm. apply N.div_mul. lia. }
    rewrite Hshift.
    unfold mbind at 1, mret at 1, M_bind at 1, M_ret at 1.
    replace (i + N.of_nat (S k)) with (i + 1 + N.of_nat k) in * by lia.
    by apply IH; [lia| |].
Qed.

(** On a slot that holds the null pointer the loop makes the same call:
    the native close is given the null pointer. *)
Lemma fdClose_mcd_single_bit_null (k : nat) :
  forall (left : nat) (i : N) (w : world),
    (k < left)%nat ->
    m_fdps (imp w) !! N.to_nat (i + N.of_nat k) = Some NULL ->
    fdClose_mcd left i (2 ^ N.of_nat k) w
    = (Undefined, World (imp w) (trace w ++ [EvFclose NULL])).
Proof.
  induction k as [|k IH]; intros left i w Hleft Hslot.
  - destruct left as [|left]; [lia|].
    replace (i + N.of_nat 0) with i in * by lia.
    cbn [fdClose_mcd]. change (2 ^ N.of_nat 0) with 1.
    change (1 =? 0) with false.
    change (N.land 1 (VL_MASK_I 1) =? 0) with false.
    cbn [negb].
    unfold fdps_read, fdps_write, native_fclose.
    unfold mbind, mret, M_bind, M_ret. cbn.
    rewrite Hslot. reflexivity.
  - destruct left as [|left]; [lia|].
    cbn [fdClose_mcd].
    assert (Hpow : 2 ^ N.of_nat (S k) = 2 * 2 ^ N.of_nat k).
    { rewrite Nat2N.inj_succ. apply N.pow_succ_r'. }
    assert (Hpos : 2 ^ N.of_nat k ≠ 0) by (apply N.pow_nonzero; lia).
    destruct (N.eqb_spec (2 ^ N.of_nat (S k)) 0) as [H0|_]; [lia|].
    assert (Heven : N.land (2 ^ N.of_nat (S k)) (VL_MASK_I 1) = 0).
    { unfold VL_MASK_I. rewrite N.land_ones, Hpow.
      change (2 ^ 1) with 2. rewrite N.mul_comm. apply N.Div0.mod_mul. }
    rewrite Heven. cbn [N.eqb negb].
    assert (Hshift : N.shiftr (2 ^ N.of_nat (S k)) 1 = 2 ^ N.of_nat k).
    { rewrite N.shiftr_div_pow2, Hpow. change (2 ^ 1) with 2.
      rewrite N.mul_comm. apply N.div_mul. lia. }
    rewrite Hshift.
    unfold mbind at 1, mret at 1, M_bind at 1, M_ret at 1.
    replace (i + N.of_nat (S k)) with (i + 1 + N.of_nat k) in * by lia.
    by apply IH; [lia|].
Qed.

Lemma channel_mask_is_mcd (k : nat) :
  (k < 31)%nat -> (N.land (2 ^ N.of_nat k) (N.shiftl 1 31) =? 0) = true.
Proof.
  intros Hk. apply N.eqb_eq. apply N.bits_inj_0. intros n.
  rewrite N.land_spec, N.shiftl_1_l, !N.pow2_bits_eqb.
  destruct (N.eqb_spec (N.of_nat k) n), (N.eqb_spec 31 n); try done. lia.
Qed.

(** [fdClose] of a single channel that holds a stream. *)
Lemma fdClose_single_channel (s : t) (k : nat) (fp : N) :
  (k < 31)%nat ->
  m_fdps s !! k = Some fp ->
  fp ≠ NULL ->
  run (fdClose (2 ^ N.of_nat k)) s
  = (Returned tt,
     set_fdFreeMct (m_fdFreeMct s ++ [N.of_nat k])
       (set_fdps (<[k := NULL]> (m_fdps s)) s),
     [EvLock m_fdMutex; EvFclose fp; EvUnlock m_fdMutex]).
Proof.
  intros Hk Hslot Hopen. unfold fdClose, run, VerilatedLockGuard.
  rewrite channel_mask_is_mcd by done. cbn [negb].
  unfold mbind, mret, M_bind, M_ret. cbn [emit imp trace].
  rewrite (fdClose_mcd_single_bit k 31 0 _ fp);
    change (0 + N.of_nat k) with (N.of_nat k); rewrite ?Nat2N.id;
    [reflexivity | done | done | done].
Qed.

(** [fdClose] of a single channel that is closed already, or was never
    opened: the call takes the mutex and gives the null pointer of the
    slot to the native close, where what C defines ends. *)
Lemma fdClose_single_channel_unbound (s : t) (k : nat) :
  (k < 31)%nat ->
  m_fdps s !! k = Some NULL ->
  run (fdClose (2 ^ N.of_nat k)) s
  = (Undefined, s, [EvLock m_fdMutex; EvFclose NULL]).
Proof.
  intros Hk Hslot. unfold fdClose, run, VerilatedLockGuard.
  rewrite channel_mask_is_mcd by done. cbn [negb].
  unfold mbind, mret, M_bind, M_ret. cbn [emit imp trace].
  rewrite (fdClose_mcd_single_bit_null k 31 0);
    change (0 + N.of_nat k) with (N.of_nat k); rewrite ?Nat2N.id;
    [reflexivity | done | done].
Qed.

End FdClose.

(** C8.  A channel is opened on a fresh registry (slot 30, handle 2^30),
    closed, and closed again.  The first close gives the stream to the
    native close and leaves the registry as it was when fresh.  The
    second close is not a no-op: it takes the mutex and gives the null
    pointer of the freed slot to the native close, which is outside what
    C defines; the call does not come back in the model. *)
Theorem fdClose_channel_twice_closes_null :
  VerilatedImp.run (Examples.mcd_closed_twice "sim.log") VerilatedImp.new
  = (VerilatedImp.Undefined, VerilatedImp.new,
     [EvLock m_fdMutex; EvFopen "sim.log" "w" 77; EvUnlock m_fdMutex;
      EvLock m_fdMutex; EvFclose 77; EvUnlock m_fdMutex;
      EvLock m_fdMutex; EvFclose NULL]).
Proof. vm_compute. reflexivity. Qed.

(** * Further properties *)

(** ** Order among messages of one mtask *)

Section Stable.

Import VerilatedEvalMsgQueue.

Lemma filter_none (k : N) (q : list VerilatedMsg.t) :
  Forall (fun m => VerilatedMsg.mtaskId m ≠ k) q ->
  filter (fun m => VerilatedMsg.mtaskId m = k) q = [].
Proof.
  induction 1 as [|x q Hx _ IH]; [done|].
  by rewrite filter_cons_False.
Qed.

Lemma filter_insert_sorted (k : N) msg q :
  StronglySorted VerilatedMsg.le q ->
  filter (fun m => VerilatedMsg.mtaskId m = k) (multiset.insert msg q)
  = filter (fun m => VerilatedMsg.mtaskId m = k) q
    ++ filter (fun m => VerilatedMsg.mtaskId m = k) [msg].
Proof.
  induction 1 as [|x q Hq IH Hx]; [done|].
  cbn [multiset.insert]. unfold VerilatedMsg.Cmp.
  destruct (N.ltb_spec (VerilatedMsg.mtaskId msg) (VerilatedMsg.mtaskId x))
    as [Hlt|Hge].
  - rewrite (filter_cons _ msg), (filter_cons _ msg [] ), filter_nil.
    case_decide as Hk; [|by rewrite app_nil_r].
    assert (Hnone : filter (fun m => VerilatedMsg.mtaskId m = k) (x :: q) = []).
    { apply filter_none. constructor.
      - lia.
      - eapply Forall_impl; [exact Hx|]. intros y Hy.
        unfold VerilatedMsg.le in Hy. lia. }
    by rewrite Hnone.
  - rewrite !(filter_cons _ x). rewrite IH. by case_decide.
Qed.

Lemma filter_post_all (k : N) msgs :
  forall q,
    StronglySorted VerilatedMsg.le (m_queue q) ->
    filter (fun m => VerilatedMsg.mtaskId m = k) (m_queue (post_all msgs q))
    = filter (fun m => VerilatedMsg.mtaskId m = k) (m_queue q)
      ++ filter (fun m => VerilatedMsg.mtaskId m = k) msgs.
Proof.
  induction msgs as [|msg msgs IH]; intros q Hq.
  - by rewrite filter_nil, app_nil_r.
  - cbn [post_all fold_left]. unfold post_all in IH. rewrite IH.
    + cbn [post m_queue]. rewrite filter_insert_sorted by done.
      rewrite <- app_assoc. f_equal.
      change (msg :: msgs) with ([msg] ++ msgs). by rewrite filter_app.
    + cbn [post m_queue]. by apply insert_StronglySorted.
Qed.

Lemma post_all_app msgs1 msgs2 q :
  post_all (msgs1 ++ msgs2) q = post_all msgs2 (post_all msgs1 q).
Proof. unfold post_all. by rewrite fold_left_app. Qed.

End Stable.

(** X1.  The messages of one mtask are run in the order in which they
    were posted: restricted to any one mtask identifier, the run is the
    sequence of posts. *)
Theorem process_keeps_arrival_order_within_mtask
    (msgs : list VerilatedMsg.t) (k : N) :
  N.of_nat (length msgs) < uint64_modulus ->
  exists ran,
    VerilatedEvalMsgQueue.process
      (VerilatedEvalMsgQueue.post_all msgs VerilatedEvalMsgQueue.new)
    = VerilatedEvalMsgQueue.Drained VerilatedEvalMsgQueue.new ran
    /\ filter (fun m => VerilatedMsg.mtaskId m = k) ran
       = filter (fun m => VerilatedMsg.mtaskId m = k) msgs.
Proof.
  intros Hlen. eexists. split; [by apply process_after_posts|].
  rewrite filter_post_all by constructor. done.
Qed.

Lemma process_keeps_arrival_order_within_mtask_witness :
  exists ran,
    VerilatedEvalMsgQueue.process
      (VerilatedEvalMsgQueue.post_all
         [VerilatedMsg.Build 7 0%nat; VerilatedMsg.Build 2 1%nat;
          VerilatedMsg.Build 7 2%nat; VerilatedMsg.Build 7 3%nat]
         VerilatedEvalMsgQueue.new)
    = VerilatedEvalMsgQueue.Drained VerilatedEvalMsgQueue.new ran
    /\ filter (fun m => VerilatedMsg.mtaskId m = 7) ran
       = filter (fun m => VerilatedMsg.mtaskId m = 7)
           [VerilatedMsg.Build 7 0%nat; VerilatedMsg.Build 2 1%nat;
            VerilatedMsg.Build 7 2%nat; VerilatedMsg.Build 7 3%nat].
Proof.
  apply (process_keeps_arrival_order_within_mtask
           [VerilatedMsg.Build 7 0%nat; VerilatedMsg.Build 2 1%nat;
            VerilatedMsg.Build 7 2%nat; VerilatedMsg.Build 7 3%nat] 7).
  vm_compute. reflexivity.
Defined.

(** ** A whole pass: every thread flushes, the consumer drains *)

Section Pass.

Import VerilatedThreadMsgQueue.

Lemma flush_all_spec threads :
  forall q,
    Sequences.flush_all threads q
    = (Sequences.flushed <$> threads,
       VerilatedEvalMsgQueue.post_all (concat (m_queue <$> threads)) q).
Proof.
  induction threads as [|s rest IH]; intros q; [done|].
  cbn [Sequences.flush_all]. rewrite flush_spec, IH.
  cbn. by rewrite post_all_app.
Qed.

End Pass.

(** What [process] does after any sequence of posts, with the run named. *)
Lemma process_runs_all_posted (msgs : list VerilatedMsg.t) :
  N.of_nat (length msgs) < uint64_modulus ->
  let ran := VerilatedEvalMsgQueue.m_queue
               (VerilatedEvalMsgQueue.post_all msgs VerilatedEvalMsgQueue.new) in
  VerilatedEvalMsgQueue.process
    (VerilatedEvalMsgQueue.post_all msgs VerilatedEvalMsgQueue.new)
  = VerilatedEvalMsgQueue.Drained VerilatedEvalMsgQueue.new ran
  /\ ran ≡ₚ msgs
  /\ Sorted VerilatedMsg.le ran.
Proof.
  intros Hlen ran. split; [|split].
  - by apply process_after_posts.
  - subst ran. by rewrite post_all_Permutation.
  - apply StronglySorted_Sorted, post_all_StronglySorted. constructor.
Qed.

(** X2.  A whole pass.  Any number of threads flush their staged
    messages, one thread after the other, into a fresh pass queue, and
    the consumer then calls [process].  Every staging queue is left
    empty, and [process] returns with the pass queue drained, having run
    every staged message of every thread exactly once, in non-decreasing
    order of mtask identifier; flushing the threads in another order gives
    the same sequence of identifiers. *)
Theorem pass_runs_every_staged_message_ascending
    (threads : list VerilatedThreadMsgQueue.t) :
  N.of_nat (length (concat (VerilatedThreadMsgQueue.m_queue <$> threads)))
  < uint64_modulus ->
  exists ran,
    Forall (fun s => VerilatedThreadMsgQueue.m_queue s = [])
      (Sequences.flush_all threads VerilatedEvalMsgQueue.new).1
    /\ VerilatedEvalMsgQueue.process
         (Sequences.flush_all threads VerilatedEvalMsgQueue.new).2
       = VerilatedEvalMsgQueue.Drained VerilatedEvalMsgQueue.new ran
    /\ ran ≡ₚ concat (VerilatedThreadMsgQueue.m_queue <$> threads)
    /\ Sorted VerilatedMsg.le ran
    /\ (forall threads',
          threads' ≡ₚ threads ->
          exists ran',
            VerilatedEvalMsgQueue.process
              (Sequences.flush_all threads' VerilatedEvalMsgQueue.new).2
            = VerilatedEvalMsgQueue.Drained VerilatedEvalMsgQueue.new ran'
            /\ VerilatedMsg.mtaskId <$> ran' = VerilatedMsg.mtaskId <$> ran).
Proof.
  intros Hlen. rewrite flush_all_spec. cbn [fst snd].
  destruct (process_runs_all_posted
              (concat (VerilatedThreadMsgQueue.m_queue <$> threads)) Hlen)
    as (Hrun & Hperm & Hsorted).
  eexists. split; [|split; [exact Hrun|split; [exact Hperm|split; [exact Hsorted|]]]].
  - apply Forall_fmap, Forall_true. done.
  - intros threads' Hthreads. rewrite flush_all_spec. cbn [snd].
    assert (Hconcat : concat (VerilatedThreadMsgQueue.m_queue <$> threads')
                      ≡ₚ concat (VerilatedThreadMsgQueue.m_queue <$> threads))
      by (by rewrite Hthreads).
    destruct (process_order_of_arrival_irrelevant _ _ Hconcat)
      as (ran1 & ran2 & Hrun1 & Hrun2 & Hids).
    { by rewrite Hconcat. }
    exists ran1. split; [exact Hrun1|].
    rewrite Hrun in Hrun2. injection Hrun2 as <-. exact Hids.
Qed.

Lemma pass_runs_every_staged_message_ascending_witness :
  exists ran,
    Forall (fun s => VerilatedThreadMsgQueue.m_queue s = [])
      (Sequences.flush_all [MoreExamples.worker1; MoreExamples.worker2]
         VerilatedEvalMsgQueue.new).1
    /\ VerilatedEvalMsgQueue.process
         (Sequences.flush_all [MoreExamples.worker1; MoreExamples.worker2]
            VerilatedEvalMsgQueue.new).2
       = VerilatedEvalMsgQueue.Drained VerilatedEvalMsgQueue.new ran
    /\ ran ≡ₚ concat (VerilatedThreadMsgQueue.m_queue
                        <$> [MoreExamples.worker1; MoreExamples.worker2])
    /\ Sorted VerilatedMsg.le ran
    /\ (forall threads',
          threads' ≡ₚ [MoreExamples.worker1; MoreExamples.worker2] ->
          exists ran',
            VerilatedEvalMsgQueue.process
              (Sequences.flush_all threads' VerilatedEvalMsgQueue.new).2
            = VerilatedEvalMsgQueue.Drained VerilatedEvalMsgQueue.new ran'
            /\ VerilatedMsg.mtaskId <$> ran' = VerilatedMsg.mtaskId <$> ran).
Proof.
  apply (pass_runs_every_staged_message_ascending
           [MoreExamples.worker1; MoreExamples.worker2]).
  vm_compute. reflexivity.
Defined.

(** X3.  The pending-flush counter and the staging queue move together:
    the counter exceeds the number of staged messages by an amount that
    no [post] (inside or outside an mtask) and no [flush] changes.  A
    thread whose counter equals its number of staged messages therefore
    has counter zero after every flush. *)
Theorem counter_tracks_staged_messages
    (s : VerilatedThreadMsgQueue.t) (cur : N) (msg : VerilatedMsg.t)
    (q : VerilatedEvalMsgQueue.t) :
  let pending (s : VerilatedThreadMsgQueue.t) :=
    (VerilatedThreadMsgQueue.endOfEvalReqd s
     - Z.of_nat (length (VerilatedThreadMsgQueue.m_queue s)))%Z in
  pending (VerilatedThreadMsgQueue.post cur msg s) = pending s
  /\ pending (VerilatedThreadMsgQueue.flush s q).1 = pending s
  /\ VerilatedThreadMsgQueue.endOfEvalReqd (VerilatedThreadMsgQueue.flush s q).1
     = pending s.
Proof.
  intros pending. subst pending. cbn beta. split; [|split].
  - destruct (N.eq_dec cur 0) as [->|Hcur].
    + by rewrite post_outside_mtask.
    + rewrite post_in_mtask by done. cbn. rewrite length_app. cbn. lia.
  - rewrite flush_spec. cbn. lia.
  - rewrite flush_spec. done.
Qed.

(** ** User data and scope names, seen through the finders *)

Section Finders.

Import VerilatedImp.

Lemma userInsert_run (s : t) (scopep userKey userData : N) :
  run (userInsert scopep userKey userData) s
  = (Returned tt,
     set_userMap (<[(scopep, userKey) := userData]> (m_userMap s)) s,
     [EvLock m_userMapMutex; EvUnlock m_userMapMutex]).
Proof.
  unfold userInsert. run_unfold.
  by destruct (m_userMap s !! (scopep, userKey)).
Qed.

Lemma userFind_run (s : t) (scopep userKey : N) :
  run (userFind scopep userKey) s
  = (Returned (default NULL (m_userMap s !! (scopep, userKey))), s,
     [EvLock m_userMapMutex; EvUnlock m_userMapMutex]).
Proof.
  unfold userFind. run_unfold.
  destruct (m_userMap s !! (scopep, userKey)); by destruct s.
Qed.

Lemma scopeInsert_run (s : t) (scope : VerilatedScope.t) :
  run (scopeInsert scope) s
  = (Returned tt,
     match m_nameMap s !! VerilatedScope.name scope with
     | None =>
         set_nameMap
           (<[VerilatedScope.name scope := VerilatedScope.scopep scope]>
              (m_nameMap s)) s
     | Some _ => s
     end,
     [EvLock m_nameMutex; EvUnlock m_nameMutex]).
Proof.
  unfold scopeInsert. run_unfold.
  destruct (m_nameMap s !! VerilatedScope.name scope); by destruct s.
Qed.

Lemma scopeFind_run (s : t) (namep : string) :
  run (scopeFind namep) s
  = (Returned (default NULL (m_nameMap s !! namep)), s,
     [EvLock m_nameMutex; EvUnlock m_nameMutex]).
Proof.
  unfold scopeFind. run_unfold.
  destruct (m_nameMap s !! namep); by destruct s.
Qed.

End Finders.

(** X4.  [userInsert] followed by [userFind] of the same scope and key
    returns the data just stored, whatever was stored there before (the
    last write wins); the answer of [userFind] for every other scope or
    key is what it was before the insert. *)
Theorem userFind_after_userInsert
    (s : VerilatedImp.t) (scopep userKey userData : N) :
  let s' := (VerilatedImp.run
               (VerilatedImp.userInsert scopep userKey userData) s).1.2 in
  (VerilatedImp.run (VerilatedImp.userFind scopep userKey) s').1.1
  = VerilatedImp.Returned userData
  /\ (forall scopep' userKey',
        (scopep', userKey') ≠ (scopep, userKey) ->
        (VerilatedImp.run (VerilatedImp.userFind scopep' userKey') s').1.1
        = (VerilatedImp.run (VerilatedImp.userFind scopep' userKey') s).1.1).
Proof.
  intros s'. subst s'. rewrite userInsert_run. cbn [fst snd]. split.
  - rewrite userFind_run. cbn. by rewrite lookup_insert_eq.
  - intros scopep' userKey' Hother. rewrite !userFind_run. cbn.
    by rewrite lookup_insert_ne.
Qed.

(** X5.  [scopeInsert] keeps the first scope registered under a name.
    Where the name is free the scope is entered and [scopeFind] of the
    name returns it; where the name is taken the registry is left exactly
    as it was and [scopeFind] goes on returning the earlier scope.
    Either way the answer of [scopeFind] for any other name is
    unchanged. *)
Theorem scopeInsert_first_registration_wins
    (s : VerilatedImp.t) (scope : VerilatedScope.t) :
  let s' := (VerilatedImp.run (VerilatedImp.scopeInsert scope) s).1.2 in
  (VerilatedImp.m_nameMap s !! VerilatedScope.name scope = None ->
   (VerilatedImp.run (VerilatedImp.scopeFind (VerilatedScope.name scope)) s').1.1
   = VerilatedImp.Returned (VerilatedScope.scopep scope))
  /\ (forall earlier,
        VerilatedImp.m_nameMap s !! VerilatedScope.name scope = Some earlier ->
        s' = s
        /\ (VerilatedImp.run
              (VerilatedImp.scopeFind (VerilatedScope.name scope)) s').1.1
           = VerilatedImp.Returned earlier)
  /\ (forall namep,
        namep ≠ VerilatedScope.name scope ->
        (VerilatedImp.run (VerilatedImp.scopeFind namep) s').1.1
        = (VerilatedImp.run (VerilatedImp.scopeFind namep) s).1.1).
Proof.
  intros s'. subst s'. rewrite scopeInsert_run. cbn [fst snd].
  split; [|split].
  - intros Hfree. rewrite Hfree, scopeFind_run. cbn.
    by rewrite lookup_insert_eq.
  - intros earlier Htaken. rewrite Htaken. split; [done|].
    rewrite scopeFind_run. cbn. by rewrite Htaken.
  - intros namep Hother. rewrite !scopeFind_run. cbn [fst snd].
    destruct (VerilatedImp.m_nameMap s !! VerilatedScope.name scope); [done|].
    cbn. by rewrite lookup_insert_ne.
Qed.

(** X6.  After [scopeErase] of a scope the finders report it gone:
    [scopeFind] of its name and [userFind] of any of its keys return the
    null pointer, while [userFind] for every other scope answers as
    before. *)
Theorem finders_after_scopeErase
    (s : VerilatedImp.t) (scope : VerilatedScope.t) :
  let s' := (VerilatedImp.run (VerilatedImp.scopeErase scope) s).1.2 in
  (VerilatedImp.run (VerilatedImp.scopeFind (VerilatedScope.name scope)) s').1.1
  = VerilatedImp.Returned NULL
  /\ (forall userKey,
        (VerilatedImp.run
           (VerilatedImp.userFind (VerilatedScope.scopep scope) userKey) s').1.1
        = VerilatedImp.Returned NULL)
  /\ (forall scopep' userKey,
        scopep' ≠ VerilatedScope.scopep scope ->
        (VerilatedImp.run (VerilatedImp.userFind scopep' userKey) s').1.1
        = (VerilatedImp.run (VerilatedImp.userFind scopep' userKey) s).1.1).
Proof.
  intros s'. subst s'. rewrite scopeErase_run. cbn [fst snd].
  split; [|split].
  - rewrite scopeFind_run. cbn. by rewrite lookup_delete_eq.
  - intros userKey. rewrite userFind_run. cbn.
    rewrite userEraseScope_loop_lookup. by rewrite decide_True.
  - intros scopep' userKey Hother. rewrite !userFind_run. cbn.
    rewrite userEraseScope_loop_lookup. by rewrite decide_False.
Qed.

(** X7.  Registering a scope and erasing it again is a round trip: from
    a registry in which the name is free and the scope owns no user
    data, [scopeInsert] followed by [scopeErase] gives back the very
    same registry. *)
Theorem scopeErase_undoes_scopeInsert
    (s : VerilatedImp.t) (scope : VerilatedScope.t) :
  VerilatedImp.m_nameMap s !! VerilatedScope.name scope = None ->
  (forall userKey,
     VerilatedImp.m_userMap s !! (VerilatedScope.scopep scope, userKey) = None) ->
  (VerilatedImp.run (VerilatedImp.scopeErase scope)
     (VerilatedImp.run (VerilatedImp.scopeInsert scope) s).1.2).1.2
  = s.
Proof.
  intros Hfree Hnodata. rewrite scopeInsert_run, Hfree. cbn [fst snd].
  rewrite scopeErase_run. cbn [fst snd].
  destruct s as [argVec loaded userMap nameMap exportMap exportNext fdps free mct].
  cbn in *. unfold VerilatedImp.set_nameMap, VerilatedImp.set_userMap. cbn.
  f_equal.
  - apply map_eq. intros [scopep' userKey].
    rewrite userEraseScope_loop_lookup. cbn.
    case_decide as Heq; [|done]. subst scopep'. by rewrite Hnodata.
  - rewrite delete_insert_eq. by apply delete_id.
Qed.

Lemma scopeErase_undoes_scopeInsert_witness :
  (VerilatedImp.run (VerilatedImp.scopeErase Examples.top)
     (VerilatedImp.run (VerilatedImp.scopeInsert Examples.top)
        VerilatedImp.new).1.2).1.2
  = VerilatedImp.new.
Proof.
  apply (scopeErase_undoes_scopeInsert VerilatedImp.new Examples.top).
  - reflexivity.
  - intros userKey. reflexivity.
Defined.

(** X8.  Erasing a scope twice is the same as erasing it once: the
    second [scopeErase] finds nothing left to remove. *)
Theorem scopeErase_twice_is_once
    (s : VerilatedImp.t) (scope : VerilatedScope.t) :
  let s' := (VerilatedImp.run (VerilatedImp.scopeErase scope) s).1.2 in
  (VerilatedImp.run (VerilatedImp.scopeErase scope) s').1.2 = s'.
Proof.
  intros s'. subst s'. rewrite !scopeErase_run. cbn [fst snd].
  destruct s as [argVec loaded userMap nameMap exportMap exportNext fdps free mct].
  unfold VerilatedImp.set_nameMap, VerilatedImp.set_userMap. cbn.
  f_equal.
  - apply map_eq. intros key. rewrite !userEraseScope_loop_lookup.
    by case_decide.
  - apply map_eq. intros namep.
    destruct (decide (VerilatedScope.name scope = namep)) as [<-|Hne].
    + by rewrite !lookup_delete_eq.
    + by rewrite !lookup_delete_ne.
Qed.

(** ** Export numbers *)

Section Exports.

Import VerilatedImp.

Lemma int_incr_small (z : Z) :
  (0 <= z < 2 ^ 31 - 1)%Z -> int_incr z = (z + 1)%Z.
Proof.
  intros Hz. unfold int_incr, int_wrap.
  rewrite Z.mod_small by lia. lia.
Qed.

Lemma exports_new : Inv.exports new.
Proof.
  split; [done|]. split.
  - intros namep funcnum H. cbn in H. by rewrite lookup_empty in H.
  - intros name1 name2 funcnum H. cbn in H. by rewrite lookup_empty in H.
Qed.

(** The map after [exportInsert]: the old entries, and the name itself
    under the old counter when it was not there. *)
Lemma exportInsert_state (s : t) (namep : string) :
  (run (exportInsert namep) s).1.2
  = match m_exportMap s !! namep with
    | None =>
        set_exportNext (int_incr (int_incr (m_exportNext s)))
          (set_exportMap (<[namep := m_exportNext s]> (m_exportMap s)) s)
    | Some _ => s
    end.
Proof.
  destruct (m_exportMap s !! namep) as [funcnum|] eqn:Hfind.
  - by rewrite (exportInsert_known _ _ funcnum).
  - by rewrite exportInsert_fresh.
Qed.

Lemma exportInsert_keeps_exports (s : t) (namep : string) :
  Inv.exports s ->
  (m_exportNext s < 2 ^ 31 - 2)%Z ->
  Inv.exports (run (exportInsert namep) s).1.2.
Proof.
  intros (Hnext & Hbelow & Hinj) Hroom. rewrite exportInsert_state.
  destruct (m_exportMap s !! namep) as [funcnum|] eqn:Hfind; [done|].
  unfold Inv.exports. cbn [m_exportNext m_exportMap set_exportNext set_exportMap].
  rewrite !int_incr_small by (rewrite ?int_incr_small by lia; lia).
  split; [lia|]. split.
  - intros name1 funcnum Hrec.
    apply lookup_insert_Some in Hrec as [[_ <-]|[_ Hrec]]; [lia|].
    apply Hbelow in Hrec. lia.
  - intros name1 name2 funcnum H1 H2.
    apply lookup_insert_Some in H1 as [[<- <-]|[Hne1 H1]];
      apply lookup_insert_Some in H2 as [[<- Heq]|[Hne2 H2]]; try done.
    + apply Hbelow in H2. lia.
    + apply Hbelow in H1. lia.
    + by apply (Hinj _ _ funcnum).
Qed.

(** [exportInsert] never changes what is recorded for a name. *)
Lemma exportInsert_keeps_recorded (s : t) (namep name1 : string) (funcnum : Z) :
  m_exportMap s !! name1 = Some funcnum ->
  m_exportMap (run (exportInsert namep) s).1.2 !! name1 = Some funcnum.
Proof.
  intros Hrec. rewrite exportInsert_state.
  destruct (m_exportMap s !! namep) eqn:Hfind; [done|].
  cbn. rewrite lookup_insert_ne; [done|]. intros ->. congruence.
Qed.

(** [exportInsert] run in the middle of a sequence: the state it
    leaves does not depend on the trace so far, and the trace grows at
    its end. *)
Lemma exportInsert_world (namep : string) (w : world) :
  exportInsert namep w
  = ((run (exportInsert namep) (imp w)).1.1,
     World (run (exportInsert namep) (imp w)).1.2
       (trace w ++ [EvLock m_exportMutex; EvUnlock m_exportMutex])).
Proof.
  destruct w as [s tr].
  destruct (m_exportMap s !! namep) as [funcnum|] eqn:Hfind.
  - rewrite (exportInsert_known _ _ funcnum) by done.
    unfold exportInsert. run_unfold. rewrite Hfind. cbn.
    rewrite <- app_assoc. by destruct s.
  - rewrite exportInsert_fresh by done.
    unfold exportInsert, exportNext_postincr. run_unfold. rewrite Hfind. cbn.
    by rewrite <- app_assoc.
Qed.

Lemma exportInsert_all_keeps_recorded (names : list string) :
  forall (w : world) (name1 : string) (funcnum : Z),
    m_exportMap (imp w) !! name1 = Some funcnum ->
    exists funcnums w',
      Sequences.exportInsert_all names w = (Returned funcnums, w')
      /\ length funcnums = length names
      /\ m_exportMap (imp w') !! name1 = Some funcnum.
Proof.
  induction names as [|namep names IH]; intros w name1 funcnum Hrec.
  - by exists [], w.
  - cbn [Sequences.exportInsert_all].
    unfold mbind at 1, M_bind at 1. rewrite exportInsert_world. cbn [fst snd].
    destruct (run (exportInsert namep) (imp w)) as [[r s'] tr] eqn:Hrun.
    assert (Hs' : m_exportMap s' !! name1 = Some funcnum).
    { pose proof (exportInsert_keeps_recorded (imp w) namep name1 funcnum Hrec)
        as H. by rewrite Hrun in H. }
    assert (Hr : exists v, r = Returned v).
    { destruct (m_exportMap (imp w) !! namep) as [v|] eqn:Hfind.
      - rewrite (exportInsert_known _ _ v) in Hrun by done.
        injection Hrun as <- _ _. by eexists.
      - rewrite exportInsert_fresh in Hrun by done.
        injection Hrun as <- _ _. by eexists. }
    destruct Hr as [v ->]. cbn [fst snd].
    destruct (IH (World s' (trace w ++ [EvLock m_exportMutex; EvUnlock m_exportMutex]))
                name1 funcnum Hs') as (funcnums & w' & Hall & Hlen & Hkept).
    unfold mbind, M_bind, mret, M_ret. rewrite Hall.
    exists (v :: funcnums), w'. cbn. by rewrite Hlen.
Qed.

(** The scan of [exportName] over entries in which no number occurs
    under two names. *)
Lemma exportName_scan_found (funcnum : Z) (entries : list (string * Z)) :
  forall namep,
    (forall name1 name2,
       (name1, funcnum) ∈ entries -> (name2, funcnum) ∈ entries ->
       name1 = name2) ->
    (namep, funcnum) ∈ entries ->
    exportName_scan funcnum entries = namep.
Proof.
  induction entries as [|[name0 num0] rest IH]; intros namep Hinj Hin.
  - by apply elem_of_nil in Hin.
  - cbn [exportName_scan fst snd].
    destruct (Z.eqb_spec num0 funcnum) as [->|Hne].
    + apply Hinj; [apply list_elem_of_here | done].
    + apply IH.
      * intros name1 name2 H1 H2. apply Hinj; by apply list_elem_of_further.
      * apply elem_of_cons in Hin as [Heq|Hin]; [congruence | done].
Qed.

Lemma exportName_scan_unknown (funcnum : Z) (entries : list (string * Z)) :
  (forall namep, (namep, funcnum) ∉ entries) ->
  exportName_scan funcnum entries = "*UNKNOWN*"%string.
Proof.
  induction entries as [|[name0 num0] rest IH]; intros Hnone; [done|].
  cbn [exportName_scan fst snd].
  destruct (Z.eqb_spec num0 funcnum) as [->|Hne].
  - exfalso. apply (Hnone name0), list_elem_of_here.
  - apply IH. intros namep Hin. apply (Hnone namep).
    by apply list_elem_of_further.
Qed.

Lemma exportName_run iteration (s : t) (funcnum : Z) :
  run (exportName iteration funcnum) s
  = (Returned (exportName_scan funcnum (iteration (m_exportMap s))), s,
     [EvLock m_exportMutex; EvUnlock m_exportMutex]).
Proof. unfold exportName. run_unfold. by destruct s. Qed.

End Exports.

(** X9.  As long as the counter has room (it is below 2^31 - 2),
    [exportInsert] keeps the export map in order: recorded numbers stay
    below the counter and no two names share a number; the name is
    recorded after the call, and no earlier record is changed.  The
    fresh registry is in order. *)
Theorem exportInsert_keeps_numbers_distinct
    (s : VerilatedImp.t) (namep : string) :
  Inv.exports s ->
  (VerilatedImp.m_exportNext s < 2 ^ 31 - 2)%Z ->
  let s' := (VerilatedImp.run (VerilatedImp.exportInsert namep) s).1.2 in
  Inv.exports VerilatedImp.new
  /\ Inv.exports s'
  /\ is_Some (VerilatedImp.m_exportMap s' !! namep)
  /\ (forall name1 funcnum,
        VerilatedImp.m_exportMap s !! name1 = Some funcnum ->
        VerilatedImp.m_exportMap s' !! name1 = Some funcnum).
Proof.
  intros Hinv Hroom s'. subst s'.
  split; [apply exports_new|].
  split; [by apply exportInsert_keeps_exports|]. split.
  - rewrite exportInsert_state.
    destruct (VerilatedImp.m_exportMap s !! namep) eqn:Hfind.
    + by rewrite Hfind.
    + cbn. by rewrite lookup_insert_eq.
  - intros name1 funcnum. apply exportInsert_keeps_recorded.
Qed.

Lemma exportInsert_keeps_numbers_distinct_witness :
  Inv.exports VerilatedImp.new
  /\ Inv.exports
       (VerilatedImp.run (VerilatedImp.exportInsert "dpi_g")
          MoreExamples.one_export).1.2
  /\ is_Some (VerilatedImp.m_exportMap
                (VerilatedImp.run (VerilatedImp.exportInsert "dpi_g")
                   MoreExamples.one_export).1.2 !! "dpi_g"%string)
  /\ (forall name1 funcnum,
        VerilatedImp.m_exportMap MoreExamples.one_export !! name1 = Some funcnum ->
        VerilatedImp.m_exportMap
          (VerilatedImp.run (VerilatedImp.exportInsert "dpi_g")
             MoreExamples.one_export).1.2 !! name1 = Some funcnum).
Proof.
  apply (exportInsert_keeps_numbers_distinct MoreExamples.one_export "dpi_g").
  - apply exportInsert_keeps_exports; [apply exports_new | reflexivity].
  - reflexivity.
Defined.

(** X10.  A recorded export number is stable: once a name is in the
    map, any further sequence of [exportInsert] calls, for whatever
    names, returns and leaves that record as it is, and [exportFind] and
    [exportInsert] of the name both return the recorded number
    afterwards. *)
Theorem recorded_number_survives_later_inserts
    (s : VerilatedImp.t) (names : list string) (namep : string) (funcnum : Z) :
  VerilatedImp.m_exportMap s !! namep = Some funcnum ->
  exists funcnums s' tr,
    VerilatedImp.run (Sequences.exportInsert_all names) s
    = (VerilatedImp.Returned funcnums, s', tr)
    /\ length funcnums = length names
    /\ VerilatedImp.m_exportMap s' !! namep = Some funcnum
    /\ (VerilatedImp.run (VerilatedImp.exportFind namep) s').1.1
       = VerilatedImp.Returned funcnum
    /\ (VerilatedImp.run (VerilatedImp.exportInsert namep) s').1.1
       = VerilatedImp.Returned funcnum.
Proof.
  intros Hrec.
  destruct (exportInsert_all_keeps_recorded names (VerilatedImp.World s [])
              namep funcnum Hrec) as (funcnums & w' & Hall & Hlen & Hkept).
  exists funcnums, (VerilatedImp.imp w'), (VerilatedImp.trace w').
  split; [unfold VerilatedImp.run; by rewrite Hall|].
  split; [done|]. split; [done|]. split.
  - by rewrite (exportFind_known _ _ funcnum).
  - by rewrite (exportInsert_known _ _ funcnum).
Qed.

Lemma recorded_number_survives_later_inserts_witness :
  exists funcnums s' tr,
    VerilatedImp.run
      (Sequences.exportInsert_all ["dpi_g"; "dpi_f"; "dpi_h"]%string)
      MoreExamples.one_export
    = (VerilatedImp.Returned funcnums, s', tr)
    /\ length funcnums = length ["dpi_g"; "dpi_f"; "dpi_h"]%string
    /\ VerilatedImp.m_exportMap s' !! "dpi_f"%string = Some 0%Z
    /\ (VerilatedImp.run (VerilatedImp.exportFind "dpi_f") s').1.1
       = VerilatedImp.Returned 0%Z
    /\ (VerilatedImp.run (VerilatedImp.exportInsert "dpi_f") s').1.1
       = VerilatedImp.Returned 0%Z.
Proof.
  apply (recorded_number_survives_later_inserts MoreExamples.one_export
           ["dpi_g"; "dpi_f"; "dpi_h"]%string "dpi_f" 0%Z).
  reflexivity.
Defined.

(** X11.  [exportName] is the way back from a recorded number.  In a
    registry whose export map is in order, whatever the order in which
    the map is iterated, [exportName] of the number recorded for a name
    returns that name, and [exportName] of a number recorded for no name
    returns "*UNKNOWN*"; the registry is not changed. *)
Theorem exportName_finds_recorded_name
    (iteration : gmap string Z -> list (string * Z))
    (s : VerilatedImp.t) (funcnum : Z) :
  (forall m, iteration m ≡ₚ map_to_list m) ->
  Inv.exports s ->
  (forall namep,
     VerilatedImp.m_exportMap s !! namep = Some funcnum ->
     VerilatedImp.run (VerilatedImp.exportName iteration funcnum) s
     = (VerilatedImp.Returned namep, s,
        [EvLock m_exportMutex; EvUnlock m_exportMutex]))
  /\ ((forall namep, VerilatedImp.m_exportMap s !! namep ≠ Some funcnum) ->
      VerilatedImp.run (VerilatedImp.exportName iteration funcnum) s
      = (VerilatedImp.Returned "*UNKNOWN*"%string, s,
         [EvLock m_exportMutex; EvUnlock m_exportMutex])).
Proof.
  intros Horder (_ & _ & Hinj).
  assert (Hin : forall namep,
            (namep, funcnum) ∈ iteration (VerilatedImp.m_exportMap s)
            <-> VerilatedImp.m_exportMap s !! namep = Some funcnum).
  { intros namep. rewrite Horder. apply elem_of_map_to_list. }
  split.
  - intros namep Hrec. rewrite exportName_run. do 3 f_equal.
    apply exportName_scan_found; [|by apply Hin].
    intros name1 name2 H1 H2. apply Hin in H1, H2. by apply (Hinj _ _ funcnum).
  - intros Hnone. rewrite exportName_run. do 3 f_equal.
    apply exportName_scan_unknown. intros namep Hfound.
    by apply Hin, Hnone in Hfound.
Qed.

Lemma exportName_finds_recorded_name_witness :
  (forall namep,
     VerilatedImp.m_exportMap MoreExamples.one_export !! namep = Some 0%Z ->
     VerilatedImp.run (VerilatedImp.exportName map_to_list 0%Z)
       MoreExamples.one_export
     = (VerilatedImp.Returned namep, MoreExamples.one_export,
        [EvLock m_exportMutex; EvUnlock m_exportMutex]))
  /\ ((forall namep,
         VerilatedImp.m_exportMap MoreExamples.one_export !! namep ≠ Some 0%Z) ->
      VerilatedImp.run (VerilatedImp.exportName map_to_list 0%Z)
        MoreExamples.one_export
      = (VerilatedImp.Returned "*UNKNOWN*"%string, MoreExamples.one_export,
         [EvLock m_exportMutex; EvUnlock m_exportMutex])).
Proof.
  apply (exportName_finds_recorded_name map_to_list MoreExamples.one_export 0%Z).
  - intros m. reflexivity.
  - apply exportInsert_keeps_exports; [apply exports_new | reflexivity].
Defined.

(** X12.  The number that the first [exportInsert] of a name returns is
    not the number of any export: in a registry whose export map is in
    order and whose counter has room, it is recorded for no name after
    the call, and [exportName] of it returns "*UNKNOWN*". *)
Theorem first_returned_number_names_no_export
    (iteration : gmap string Z -> list (string * Z))
    (s : VerilatedImp.t) (namep : string) :
  (forall m, iteration m ≡ₚ map_to_list m) ->
  Inv.exports s ->
  (VerilatedImp.m_exportNext s < 2 ^ 31 - 2)%Z ->
  VerilatedImp.m_exportMap s !! namep = None ->
  exists returned s',
    VerilatedImp.run (VerilatedImp.exportInsert namep) s
    = (VerilatedImp.Returned returned, s',
       [EvLock m_exportMutex; EvUnlock m_exportMutex])
    /\ (forall name1, VerilatedImp.m_exportMap s' !! name1 ≠ Some returned)
    /\ VerilatedImp.run (VerilatedImp.exportName iteration returned) s'
       = (VerilatedImp.Returned "*UNKNOWN*"%string, s',
          [EvLock m_exportMutex; EvUnlock m_exportMutex]).
Proof.
  intros Horder Hinv Hroom Hfresh.
  eexists _, _. split; [by apply exportInsert_fresh|].
  destruct Hinv as (Hnext & Hbelow & Hinj).
  assert (Hnone : forall name1,
            VerilatedImp.m_exportMap
              (VerilatedImp.set_exportNext
                 (int_incr (int_incr (VerilatedImp.m_exportNext s)))
                 (VerilatedImp.set_exportMap
                    (<[namep := VerilatedImp.m_exportNext s]>
                       (VerilatedImp.m_exportMap s)) s))
              !! name1 ≠ Some (int_incr (VerilatedImp.m_exportNext s))).
  { intros name1 Hrec. cbn in Hrec. rewrite int_incr_small in Hrec by lia.
    apply lookup_insert_Some in Hrec as [[_ Heq]|[_ Hrec]]; [lia|].
    apply Hbelow in Hrec. lia. }
  split; [exact Hnone|].
  rewrite exportName_run. do 3 f_equal.
  apply exportName_scan_unknown. intros name1 Hfound.
  rewrite Horder in Hfound. apply elem_of_map_to_list in Hfound.
  by apply (Hnone name1).
Qed.

Lemma first_returned_number_names_no_export_witness :
  exists returned s',
    VerilatedImp.run (VerilatedImp.exportInsert "dpi_f") VerilatedImp.new
    = (VerilatedImp.Returned returned, s',
       [EvLock m_exportMutex; EvUnlock m_exportMutex])
    /\ (forall name1, VerilatedImp.m_exportMap s' !! name1 ≠ Some returned)
    /\ VerilatedImp.run (VerilatedImp.exportName map_to_list returned) s'
       = (VerilatedImp.Returned "*UNKNOWN*"%string, s',
          [EvLock m_exportMutex; EvUnlock m_exportMutex]).
Proof.
  apply (first_returned_number_names_no_export map_to_list
           VerilatedImp.new "dpi_f").
  - intros m. reflexivity.
  - apply exports_new.
  - reflexivity.
  - reflexivity.
Defined.

(** ** Hierarchy edges *)

Lemma hierarchyAdd_lookup (fromp top parent : N) (m : gmap N (list N)) :
  default [] (VerilatedImp.hierarchyAdd fromp top m !! parent)
  = default [] (m !! parent) ++ (if decide (fromp = parent) then [top] else []).
Proof.
  unfold VerilatedImp.hierarchyAdd. case_decide as Heq.
  - subst. by rewrite lookup_insert_eq.
  - rewrite lookup_insert_ne by done. by rewrite app_nil_r.
Qed.

(** X13.  [hierarchyAdd] only ever appends.  After any sequence of
    calls, the children listed under a parent are the ones listed
    before, followed by the children of the calls made for that parent, in
    the order of the calls and with repetitions kept. *)
Theorem hierarchyAdd_appends_in_call_order
    (edges : list (N * N)) (m : gmap N (list N)) (parent : N) :
  default [] (Sequences.hierarchyAdd_all edges m !! parent)
  = default [] (m !! parent)
    ++ (filter (fun e => e.1 = parent) edges).*2.
Proof.
  revert m. induction edges as [|[fromp top] edges IH]; intros m.
  - cbn. by rewrite app_nil_r.
  - cbn [Sequences.hierarchyAdd_all fold_left fst snd].
    unfold Sequences.hierarchyAdd_all in IH. rewrite IH.
    rewrite hierarchyAdd_lookup, filter_cons. cbn [fst].
    case_decide; cbn; [by rewrite <- app_assoc | by rewrite app_nil_r].
Qed.

(** ** The file table stays in order *)

Section FileInv.

Import VerilatedImp.

#[local] Arguments fdNew_grow : simpl never.

Lemma iota_snoc (n : nat) :
  forall first, iota first (S n) = iota first n ++ [first + N.of_nat n].
Proof.
  induction n as [|n IH]; intros first.
  - cbn. f_equal. lia.
  - change (iota first (S (S n))) with (first :: iota (N.succ first) (S n)).
    rewrite (IH (N.succ first)).
    change (iota first (S n)) with (first :: iota (N.succ first) n).
    cbn [app]. do 3 f_equal. lia.
Qed.

Lemma iota_bounds (n : nat) :
  forall first, Forall (fun idx => first <= idx < first + N.of_nat n) (iota first n).
Proof.
  induction n as [|n IH]; intros first; [constructor|].
  cbn [iota]. constructor; [lia|].
  eapply Forall_impl; [apply IH|]. intros idx. cbn. lia.
Qed.

(** The table [fdNew] works on once it holds the mutex: grown when the
    free list was empty. *)
Lemma fdNew_grow_files (s : t) :
  Inv.files s ->
  Inv.files (fdNew_grow s)
  /\ (length (m_fdps (fdNew_grow s))
      = N.to_nat (N.max 35 (N.of_nat (length (m_fdps s)))) + 10)%nat
  /\ m_fdFree (fdNew_grow s)
     = iota (N.max 35 (N.of_nat (length (m_fdps s)))) 9
       ++ [N.max 35 (N.of_nat (length (m_fdps s))) + 9]
  /\ m_fdFreeMct (fdNew_grow s) = m_fdFreeMct s.
Proof.
  intros (Hlen & Hfree & Hmct). unfold fdNew_grow.
  change (31 + 1 + 3) with 35.
  set (start := N.max 35 (N.of_nat (length (m_fdps s)))).
  assert (Hstart : N.of_nat (length (m_fdps s)) <= start) by lia.
  assert (Hlen' : (length (m_fdps s
                     ++ replicate (N.to_nat (start + 10) - length (m_fdps s)) NULL)
                   = N.to_nat start + 10)%nat).
  { rewrite length_app, length_replicate. lia. }
  split; [|split; [|split]].
  - split; [|split].
    + cbn [m_fdps set_fdps set_fdFree]. lia.
    + cbn [m_fdps m_fdFree set_fdps set_fdFree]. rewrite Hlen'.
      eapply Forall_impl; [apply (iota_bounds (N.to_nat 10) start)|].
      intros idx. cbn. lia.
    + done.
  - cbn [m_fdps set_fdps set_fdFree]. exact Hlen'.
  - cbn [m_fdFree set_fdFree]. change (N.to_nat 10) with (S 9).
    by rewrite iota_snoc.
  - done.
Qed.

(** [fdNew] after a successful open, on a table whose free list ends in
    [idx]: the slot is taken from the back of the list and bound. *)
Lemma fdNew_run_pop fopen (s : t) (filenamep modep : string)
    (rest : list N) (idx : N) :
  fopen filenamep modep ≠ NULL ->
  m_fdFree s = rest ++ [idx] ->
  (N.to_nat idx < length (m_fdps s))%nat ->
  run (fdNew fopen filenamep modep) s
  = (Returned (to_IData (N.lor idx (N.shiftl 1 31))),
     set_fdps (<[N.to_nat idx := fopen filenamep modep]> (m_fdps s))
       (set_fdFree rest s),
     [EvFopen filenamep modep (fopen filenamep modep);
      EvLock m_fdMutex; EvUnlock m_fdMutex]).
Proof.
  intros Hopen Hfree Hidx.
  unfold fdNew, native_fopen, fdps_write. run_unfold.
  destruct (N.eqb_spec (fopen filenamep modep) NULL) as [|_]; [done|].
  cbn. rewrite decide_False by (rewrite Hfree; by destruct rest).
  cbn. rewrite Hfree, pop_back_snoc. cbn.
  rewrite decide_True by done. reflexivity.
Qed.

(** The same on an empty free list: the table grows first. *)
Lemma fdNew_run_grow fopen (s : t) (filenamep modep : string)
    (rest : list N) (idx : N) :
  fopen filenamep modep ≠ NULL ->
  m_fdFree s = [] ->
  m_fdFree (fdNew_grow s) = rest ++ [idx] ->
  (N.to_nat idx < length (m_fdps (fdNew_grow s)))%nat ->
  run (fdNew fopen filenamep modep) s
  = (Returned (to_IData (N.lor idx (N.shiftl 1 31))),
     set_fdps (<[N.to_nat idx := fopen filenamep modep]> (m_fdps (fdNew_grow s)))
       (set_fdFree rest (fdNew_grow s)),
     [EvFopen filenamep modep (fopen filenamep modep);
      EvLock m_fdMutex; EvUnlock m_fdMutex]).
Proof.
  intros Hopen Hempty Hfree Hidx.
  unfold fdNew, native_fopen, fdps_write. run_unfold.
  destruct (N.eqb_spec (fopen filenamep modep) NULL) as [|_]; [done|].
  cbn. rewrite decide_True by done.
  cbn. rewrite Hfree, pop_back_snoc. cbn.
  rewrite decide_True by done. reflexivity.
Qed.

End FileInv.

Section Handles.

Import VerilatedImp.

(** A descriptor handle carries bit 31 ... *)
Lemma handle_bit31 (idx : N) :
  N.testbit (to_IData (N.lor idx (N.shiftl 1 31))) 31 = true.
Proof.
  unfold to_IData, IData_modulus.
  rewrite N.mod_pow2_bits_low by lia.
  rewrite N.lor_spec, N.shiftl_1_l, N.pow2_bits_true. apply orb_true_r.
Qed.

(** ... and below it the slot number. *)
Lemma handle_slot (idx : N) :
  idx < 2 ^ 31 ->
  N.land (to_IData (N.lor idx (N.shiftl 1 31))) (VL_MASK_I 31) = idx.
Proof.
  intros Hidx. unfold VL_MASK_I, to_IData, IData_modulus.
  rewrite N.land_ones. rewrite <- (N.mod_small idx (2 ^ 31)) at 2 by done.
  apply N.bits_inj. intros n.
  destruct (N.lt_ge_cases n 31) as [Hlow|Hhigh].
  - rewrite !N.mod_pow2_bits_low by lia.
    rewrite N.lor_spec, N.shiftl_1_l, N.pow2_bits_false by lia.
    apply orb_false_r.
  - by rewrite !N.mod_pow2_bits_high.
Qed.

Lemma handle_nonzero (idx : N) :
  to_IData (N.lor idx (N.shiftl 1 31)) ≠ 0.
Proof.
  intros Hzero. pose proof (handle_bit31 idx) as Hbit.
  rewrite Hzero in Hbit. discriminate Hbit.
Qed.

Lemma channel_bit_clear (fdi : N) :
  N.testbit fdi 31 = false -> (N.land fdi (N.shiftl 1 31) =? 0) = true.
Proof.
  intros Hbit. apply N.eqb_eq, N.bits_inj_0. intros n.
  rewrite N.land_spec, N.shiftl_1_l, N.pow2_bits_eqb.
  destruct (N.eqb_spec 31 n) as [<-|_]; [by rewrite Hbit | apply andb_false_r].
Qed.

End Handles.

(** X14.  [fdNew] keeps the file table in order and never leaves what
    C++ defines.  From a table in order it returns; the table is in
    order afterwards, no shorter than before, and the channel pool is
    untouched.  The handle returned is zero exactly when the native open
    failed; otherwise it carries bit 31. *)
Theorem fdNew_keeps_table_in_order
    (fopen : string -> string -> N) (s : VerilatedImp.t)
    (filenamep modep : string) :
  Inv.files s ->
  exists h s' tr,
    VerilatedImp.run (VerilatedImp.fdNew fopen filenamep modep) s
    = (VerilatedImp.Returned h, s', tr)
    /\ Inv.files s'
    /\ (length (VerilatedImp.m_fdps s) <= length (VerilatedImp.m_fdps s'))%nat
    /\ VerilatedImp.m_fdFreeMct s' = VerilatedImp.m_fdFreeMct s
    /\ (h = 0 <-> fopen filenamep modep = NULL)
    /\ (h ≠ 0 -> N.testbit h 31 = true).
Proof.
  intros Hinv.
  destruct (N.eq_dec (fopen filenamep modep) NULL) as [Hfail|Hopen].
  { eexists _, _, _. split; [by apply fdNew_open_fails|].
    split; [done|]. split; [done|]. split; [done|]. split; [done|]. done. }
  assert (Hpop : forall s1 rest idx,
            Inv.files s1 ->
            VerilatedImp.m_fdFree s1 = rest ++ [idx] ->
            Inv.files
              (VerilatedImp.set_fdps
                 (<[N.to_nat idx := fopen filenamep modep]> (VerilatedImp.m_fdps s1))
                 (VerilatedImp.set_fdFree rest s1))
            /\ (N.to_nat idx < length (VerilatedImp.m_fdps s1))%nat).
  { intros s1 rest idx (Hlen & Hfree & Hmct) Hshape. rewrite Hshape in Hfree.
    apply Forall_app in Hfree as [Hrest Hidx].
    apply (proj1 (Forall_singleton _ _)) in Hidx. split; [|done].
    split; [|split].
    - cbn. by rewrite length_insert.
    - eapply Forall_impl; [exact Hrest|]. intros free. cbn.
      by rewrite length_insert.
    - done. }
  destruct (VerilatedImp.m_fdFree s) as [|x free] eqn:Hfree using rev_ind.
  - destruct (fdNew_grow_files s Hinv) as (Hinv1 & Hlen1 & Hfree1 & Hmct1).
    destruct (Hpop _ _ _ Hinv1 Hfree1) as [Hinv' Hidx].
    eexists _, _, _. split; [by eapply fdNew_run_grow|].
    split; [exact Hinv'|].
    split; [cbn [VerilatedImp.m_fdps VerilatedImp.set_fdps VerilatedImp.set_fdFree];
            rewrite length_insert, Hlen1; lia|].
    split; [exact Hmct1|]. split.
    + split; [intros H; by apply handle_nonzero in H | done].
    + intros _. apply handle_bit31.
  - clear IHfree.
    destruct (Hpop _ _ _ Hinv Hfree) as [Hinv' Hidx].
    eexists _, _, _. split; [by eapply fdNew_run_pop|].
    split; [exact Hinv'|]. split; [cbn; by rewrite length_insert|].
    split; [done|]. split.
    + split; [intros H; by apply handle_nonzero in H | done].
    + intros _. apply handle_bit31.
Qed.

Section FileInvMore.

Import VerilatedImp.

Lemma files_new : Inv.files new.
Proof.
  split; [|split].
  - cbn. lia.
  - constructor.
  - apply (bool_decide_unpack _). by vm_compute.
Qed.

(** [fdNewMcd] on a pool that ends in [idx], whatever the open answers. *)
Lemma fdNewMcd_run_pop fopen (s : t) (filenamep : string)
    (rest : list N) (idx : N) :
  m_fdFreeMct s = rest ++ [idx] ->
  (N.to_nat idx < length (m_fdps s))%nat ->
  run (fdNewMcd fopen filenamep) s
  = (Returned (if fopen filenamep "w"%string =? NULL then 0
               else to_IData (N.shiftl 1 idx)),
     set_fdps (<[N.to_nat idx := fopen filenamep "w"%string]> (m_fdps s))
       (set_fdFreeMct rest s),
     [EvLock m_fdMutex;
      EvFopen filenamep "w" (fopen filenamep "w"%string);
      EvUnlock m_fdMutex]).
Proof.
  intros Hpool Hidx.
  unfold fdNewMcd, native_fopen, fdps_write, fdps_read. run_unfold.
  rewrite Hpool, pop_back_snoc. cbn.
  rewrite decide_True by done. cbn.
  rewrite list_lookup_insert_eq by done. cbn.
  by destruct (fopen filenamep "w"%string =? NULL).
Qed.

Lemma channel_handle (idx : N) : idx < 31 -> to_IData (N.shiftl 1 idx) = 2 ^ idx.
Proof.
  intros Hidx. unfold to_IData, IData_modulus. rewrite N.shiftl_1_l.
  apply N.mod_small. apply N.pow_lt_mono_r; lia.
Qed.





End FileInvMore.

Lemma fdNew_keeps_table_in_order_witness :
  exists h s' tr,
    VerilatedImp.run
      (VerilatedImp.fdNew (Examples.fopen_ok 77) "sim.log" "w") VerilatedImp.new
    = (VerilatedImp.Returned h, s', tr)
    /\ Inv.files s'
    /\ (length (VerilatedImp.m_fdps VerilatedImp.new)
        <= length (VerilatedImp.m_fdps s'))%nat
    /\ VerilatedImp.m_fdFreeMct s' = VerilatedImp.m_fdFreeMct VerilatedImp.new
    /\ (h = 0 <-> Examples.fopen_ok 77 "sim.log" "w" = NULL)
    /\ (h ≠ 0 -> N.testbit h 31 = true).
Proof.
  apply (fdNew_keeps_table_in_order (Examples.fopen_ok 77) VerilatedImp.new
           "sim.log" "w").
  apply files_new.
Defined.

(** X15.  [fdNewMcd] keeps the file table in order and never leaves what
    C++ defines.  From a table in order it returns, with the table in
    order, of the same length, and the descriptor free list untouched.
    A non-zero result is a single bit 2^idx with idx below 31: the slot
    taken from the back of the channel pool, now holding the stream that
    the native open returned. *)
Theorem fdNewMcd_keeps_table_in_order
    (fopen : string -> string -> N) (s : VerilatedImp.t) (filenamep : string) :
  Inv.files s ->
  exists h s' tr,
    VerilatedImp.run (VerilatedImp.fdNewMcd fopen filenamep) s
    = (VerilatedImp.Returned h, s', tr)
    /\ Inv.files s'
    /\ length (VerilatedImp.m_fdps s') = length (VerilatedImp.m_fdps s)
    /\ VerilatedImp.m_fdFree s' = VerilatedImp.m_fdFree s
    /\ (h ≠ 0 ->
        exists idx,
          idx < 31 /\ h = 2 ^ idx
          /\ VerilatedImp.m_fdFreeMct s = VerilatedImp.m_fdFreeMct s' ++ [idx]
          /\ fopen filenamep "w"%string ≠ NULL
          /\ VerilatedImp.m_fdps s' !! N.to_nat idx
             = Some (fopen filenamep "w"%string)).
Proof.
  intros Hinv. pose proof Hinv as (Hlen & Hfree & Hmct).
  destruct (VerilatedImp.m_fdFreeMct s) as [|idx rest _] eqn:Hpool using rev_ind.
  - eexists _, _, _. split; [by apply fdNewMcd_pool_empty|].
    split; [exact Hinv|]. split; [done|]. split; [done|]. done.
  - rewrite ?Hpool in Hmct.
    assert (Hidx : idx < 31).
    { apply Forall_app in Hmct as [_ Hidx].
      by apply (proj1 (Forall_singleton _ _)) in Hidx. }
    assert (Hslot : (N.to_nat idx < length (VerilatedImp.m_fdps s))%nat) by lia.
    eexists _, _, _. split; [by apply fdNewMcd_run_pop|].
    split; [|split; [|split; [|]]].
    + split; [|split]; cbn.
      * by rewrite length_insert.
      * eapply Forall_impl; [exact Hfree|]. intros free. cbn.
        by rewrite length_insert.
      * by apply Forall_app in Hmct as [Hrest _].
    + cbn. by rewrite length_insert.
    + done.
    + intros Hh. exists idx.
      destruct (N.eqb_spec (fopen filenamep "w"%string) NULL) as [|Hopen]; [done|].
      split; [done|]. split; [by apply channel_handle|].
      split; [done|]. split; [done|].
      cbn. by rewrite list_lookup_insert_eq.
Qed.

Lemma fdNewMcd_keeps_table_in_order_witness :
  exists h s' tr,
    VerilatedImp.run
      (VerilatedImp.fdNewMcd (Examples.fopen_ok 77) "sim.log") VerilatedImp.new
    = (VerilatedImp.Returned h, s', tr)
    /\ Inv.files s'
    /\ length (VerilatedImp.m_fdps s') = length (VerilatedImp.m_fdps VerilatedImp.new)
    /\ VerilatedImp.m_fdFree s' = VerilatedImp.m_fdFree VerilatedImp.new
    /\ (h ≠ 0 ->
        exists idx,
          idx < 31 /\ h = 2 ^ idx
          /\ VerilatedImp.m_fdFreeMct VerilatedImp.new
             = VerilatedImp.m_fdFreeMct s' ++ [idx]
          /\ Examples.fopen_ok 77 "sim.log" "w"%string ≠ NULL
          /\ VerilatedImp.m_fdps s' !! N.to_nat idx
             = Some (Examples.fopen_ok 77 "sim.log" "w"%string)).
Proof.
  apply (fdNewMcd_keeps_table_in_order (Examples.fopen_ok 77) VerilatedImp.new
           "sim.log").
  apply files_new.
Defined.



(** ** Resolving handles *)

Section Resolve.

Import VerilatedImp.

Variables stdin stdout stderr : N.

Lemma omap_seq_shift {B} (f : nat -> option B) (n : nat) :
  forall a, omap f (seq (S a) n) = omap (fun j => f (S j)) (seq a n).
Proof.
  induction n as [|n IH]; intros a; [done|].
  cbn [seq omap list_omap]. by rewrite IH.
Qed.

Lemma omap_seq_ext {B} (f g : nat -> option B) (n : nat) :
  forall a, (forall j, f j = g j) -> omap f (seq a n) = omap g (seq a n).
Proof.
  induction n as [|n IH]; intros a Hfg; [done|].
  cbn [seq omap list_omap]. by rewrite Hfg, IH.
Qed.

(** The multi-channel loop of [fdToFp] appends, lowest bit first, the
    streams of the set bits it still has to visit, until [max] are
    stored. *)
Lemma fdToFp_mcd_spec (left : nat) :
  forall (i fdi max : N) (fp : list N) (w : world),
    (N.to_nat i + left <= length (m_fdps (imp w)))%nat ->
    fdToFp_mcd left i fdi max fp w
    = (Returned
         (fp ++ take (N.to_nat max - length fp)
                  (omap (fun j => if N.testbit fdi (N.of_nat j)
                                  then m_fdps (imp w) !! (N.to_nat i + j)%nat
                                  else None)
                        (seq 0 left))),
       w).
Proof.
  induction left as [|left IH]; intros i fdi max fp w Hlen.
  - cbn. by rewrite take_nil, app_nil_r.
  - cbn [fdToFp_mcd].
    destruct (N.eqb_spec fdi 0) as [->|Hfdi].
    { cbn [orb]. unfold mret, M_ret. do 2 f_equal.
      rewrite (omap_seq_ext _ (fun _ => None)) by (intros j; by rewrite N.bits_0).
      assert (Hnone : forall n a, omap (fun _ : nat => @None N) (seq a n) = []).
      { induction n as [|n IHn]; intros a; [done|]. cbn. apply IHn. }
      by rewrite Hnone, take_nil, app_nil_r. }
    cbn [orb].
    destruct (N.ltb_spec (N.of_nat (length fp)) max) as [Hroom|Hfull]; cbn [negb].
    2:{ unfold mret, M_ret. do 2 f_equal.
        replace (N.to_nat max - length fp)%nat with 0%nat by lia.
        by rewrite take_0, app_nil_r. }
    cbn [seq omap list_omap].
    rewrite omap_seq_shift.
    assert (Hbit0 : N.testbit fdi (N.of_nat 0)
                    = negb (N.land fdi (VL_MASK_I 1) =? 0)).
    { change (N.of_nat 0) with 0. unfold VL_MASK_I.
      rewrite N.land_ones. change (2 ^ 1) with 2.
      pose proof (N.bit0_mod fdi) as Hmod.
      destruct (N.testbit fdi 0); cbn in Hmod; by rewrite <- Hmod. }
    rewrite Hbit0.
    assert (Hrest : forall fp',
              fdToFp_mcd left (i + 1) (N.shiftr fdi 1) max fp' w
              = (Returned
                   (fp' ++ take (N.to_nat max - length fp')
                      (omap (fun j => if N.testbit fdi (N.of_nat (S j))
                                      then m_fdps (imp w) !! (N.to_nat i + S j)%nat
                                      else None)
                            (seq 0 left))),
                 w)).
    { intros fp'. rewrite IH by lia. do 4 f_equal.
      apply omap_seq_ext. intros j.
      rewrite N.shiftr_spec by lia.
      replace (N.of_nat j + 1) with (N.of_nat (S j)) by lia.
      by replace (N.to_nat (i + 1) + j)%nat with (N.to_nat i + S j)%nat by lia. }
    destruct (negb (N.land fdi (VL_MASK_I 1) =? 0)).
    + destruct (lookup_lt_is_Some_2 (m_fdps (imp w)) (N.to_nat i)) as [stream Hs];
        [lia|].
      unfold fdps_read. unfold mbind, mret, M_bind, M_ret. cbn.
      rewrite Hs. cbn. rewrite Hrest.
      replace (N.to_nat i + 0)%nat with (N.to_nat i) by lia. rewrite Hs.
      do 2 f_equal. rewrite <- app_assoc. f_equal.
      rewrite length_app. cbn [length].
      replace (N.to_nat max - length fp)%nat
        with (S (N.to_nat max - (length fp + 1)))%nat by lia.
      done.
    + unfold mbind, mret, M_bind, M_ret. cbn. by rewrite Hrest.
Qed.

End Resolve.

Section ResolveRuns.

Import VerilatedImp.

Variables stdin stdout stderr : N.

(** [fdToFp] on a channel mask, in the middle of a longer call. *)
Lemma fdToFp_world_mcd (fdi max : N) (w : world) :
  (31 <= length (m_fdps (imp w)))%nat ->
  N.testbit fdi 31 = false ->
  max ≠ 0 ->
  fdToFp stdin stdout stderr fdi true max w
  = (Returned (take (N.to_nat max) (Inv.channels (m_fdps (imp w)) fdi)),
     World (imp w) (trace w ++ [EvLock m_fdMutex; EvUnlock m_fdMutex])).
Proof.
  intros Hlen Hbit Hmax. unfold fdToFp, VerilatedLockGuard.
  destruct (N.eqb_spec max 0) as [|_]; [done|]. cbn [negb orb].
  rewrite channel_bit_clear by done. cbn [negb].
  unfold mbind, mret, M_bind, M_ret. cbn [emit imp trace].
  rewrite fdToFp_mcd_spec by (cbn [imp m_fdps]; lia).
  cbn [imp trace app length]. rewrite Nat.sub_0_r, <- app_assoc.
  unfold Inv.channels. by do 3 f_equal.
Qed.

Lemma fdToFp_run_mcd (s : t) (fdi max : N) :
  (31 <= length (m_fdps s))%nat ->
  N.testbit fdi 31 = false ->
  max ≠ 0 ->
  run (fdToFp stdin stdout stderr fdi true max) s
  = (Returned (take (N.to_nat max) (Inv.channels (m_fdps s) fdi)),
     s, [EvLock m_fdMutex; EvUnlock m_fdMutex]).
Proof.
  intros Hlen Hbit Hmax. unfold run.
  by rewrite (fdToFp_world_mcd fdi max (World s [])).
Qed.

(** [fdToFp] on a descriptor handle, in the middle of a longer call. *)
Lemma fdToFp_world_descriptor (fdi max : N) (w : world) :
  N.testbit fdi 31 = true ->
  max ≠ 0 ->
  fdToFp stdin stdout stderr fdi true max w
  = (Returned
       (let idx := N.land fdi (VL_MASK_I 31) in
        if idx =? 0 then [stdin]
        else if idx =? 1 then [stdout]
        else if idx =? 2 then [stderr]
        else match m_fdps (imp w) !! N.to_nat idx with
             | Some stream => [stream]
             | None => []
             end),
     World (imp w) (trace w ++ [EvLock m_fdMutex; EvUnlock m_fdMutex])).
Proof.
  intros Hbit Hmax. unfold fdToFp, VerilatedLockGuard, fdps_read.
  destruct (N.eqb_spec max 0) as [|_]; [done|]. cbn [negb orb].
  rewrite descriptor_bit_set by done. cbn [negb].
  unfold mbind, mret, M_bind, M_ret. cbn [emit imp trace get].
  cbn zeta.
  destruct (N.land fdi (VL_MASK_I 31) =? 0);
    [cbn; by rewrite <- app_assoc|].
  destruct (N.land fdi (VL_MASK_I 31) =? 1);
    [cbn; by rewrite <- app_assoc|].
  destruct (N.land fdi (VL_MASK_I 31) =? 2);
    [cbn; by rewrite <- app_assoc|].
  cbn [imp trace].
  destruct (N.ltb_spec (N.land fdi (VL_MASK_I 31))
              (N.of_nat (length (m_fdps w.(imp))))) as [Hin|Hout].
  - destruct (lookup_lt_is_Some_2 (m_fdps (imp w))
                (N.to_nat (N.land fdi (VL_MASK_I 31)))) as [stream Hs]; [lia|].
    cbn [imp trace]. rewrite Hs. cbn. by rewrite <- app_assoc.
  - rewrite (lookup_ge_None_2 (m_fdps (imp w))) by lia.
    cbn. by rewrite <- app_assoc.
Qed.

End ResolveRuns.

Section Allocation.

Import VerilatedImp.

(** What a successful [fdNew] does, for both ways of finding the slot:
    [s1] is the table once the mutex is held (grown if the free list was
    empty), [idx] the slot at the back of its free list. *)
Lemma fdNew_success fopen (s : t) (filenamep modep : string) :
  Inv.files s ->
  fopen filenamep modep ≠ NULL ->
  exists s1 rest idx,
    m_fdFree s1 = rest ++ [idx]
    /\ (N.to_nat idx < length (m_fdps s1))%nat
    /\ (length (m_fdps s1) <= length (m_fdps s) + 45)%nat
    /\ (Forall (fun free => 3 <= free) (m_fdFree s) -> 3 <= idx)
    /\ run (fdNew fopen filenamep modep) s
       = (Returned (to_IData (N.lor idx (N.shiftl 1 31))),
          set_fdps (<[N.to_nat idx := fopen filenamep modep]> (m_fdps s1))
            (set_fdFree rest s1),
          [EvFopen filenamep modep (fopen filenamep modep);
           EvLock m_fdMutex; EvUnlock m_fdMutex]).
Proof.
  intros Hinv Hopen.
  destruct (m_fdFree s) as [|idx rest _] eqn:Hfree using rev_ind.
  - destruct (fdNew_grow_files s Hinv) as ((_ & Hfree1 & _) & Hlen1 & Hshape & _).
    exists (fdNew_grow s), (iota (N.max 35 (N.of_nat (length (m_fdps s)))) 9),
           (N.max 35 (N.of_nat (length (m_fdps s))) + 9).
    split; [exact Hshape|].
    assert (Hidx : (N.to_nat (N.max 35 (N.of_nat (length (m_fdps s))) + 9)
                    < length (m_fdps (fdNew_grow s)))%nat) by lia.
    split; [exact Hidx|]. split; [destruct Hinv; lia|]. split; [lia|].
    by eapply fdNew_run_grow.
  - pose proof Hinv as (_ & Hall & _). rewrite Hfree in Hall.
    apply Forall_app in Hall as [_ Hidx].
    apply (proj1 (Forall_singleton _ _)) in Hidx.
    exists s, rest, idx. split; [done|]. split; [done|]. split; [lia|]. split.
    + intros H3. apply Forall_app in H3 as [_ H3].
      by apply (proj1 (Forall_singleton _ _)) in H3.
    + by eapply fdNew_run_pop.
Qed.

(** [fdClose] of a descriptor handle whose slot holds a stream. *)
Lemma fdClose_descriptor_bound (s : t) (fdi stream : N) :
  N.testbit fdi 31 = true ->
  m_fdps s !! N.to_nat (N.land (VL_MASK_I 31) fdi) = Some stream ->
  stream ≠ NULL ->
  run (fdClose fdi) s
  = (Returned tt,
     set_fdFree (m_fdFree s ++ [N.land (VL_MASK_I 31) fdi])
       (set_fdps (<[N.to_nat (N.land (VL_MASK_I 31) fdi) := NULL]> (m_fdps s)) s),
     [EvLock m_fdMutex; EvFclose stream; EvUnlock m_fdMutex]).
Proof.
  intros Hbit Hslot Hopen.
  pose proof (lookup_lt_Some _ _ _ Hslot) as Hin.
  destruct stream as [|p]; [done|].
  unfold fdClose, fdps_read, fdps_write, native_fclose. run_unfold.
  rewrite descriptor_bit_set by done. cbn.
  destruct (N.leb_spec (N.of_nat (length (m_fdps s)))
              (N.land (VL_MASK_I 31) fdi)) as [Hle|_]; [lia|].
  cbn. rewrite Hslot. cbn. rewrite decide_True by lia. reflexivity.
Qed.

(** The one stream a single-bit mask selects. *)
Lemma channels_single (fdps : list N) (idx stream : N) :
  idx < 31 ->
  fdps !! N.to_nat idx = Some stream ->
  Inv.channels fdps (2 ^ idx) = [stream].
Proof.
  intros Hidx Hslot. unfold Inv.channels.
  assert (Hnone : forall l : list nat,
            N.to_nat idx ∉ l ->
            omap (fun i => if N.testbit (2 ^ idx) (N.of_nat i)
                           then fdps !! i else None) l = []).
  { induction l as [|j l IH]; intros Hnotin; [done|].
    apply not_elem_of_cons in Hnotin as [Hne Hnotin].
    cbn. rewrite N.pow2_bits_false by lia. by apply IH. }
  replace (seq 0 31)
    with (seq 0 (N.to_nat idx) ++ [N.to_nat idx]
          ++ seq (S (N.to_nat idx)) (30 - N.to_nat idx)).
  - rewrite !omap_app.
    rewrite (Hnone (seq 0 (N.to_nat idx))),
      (Hnone (seq (S (N.to_nat idx)) (30 - N.to_nat idx))).
    + cbn [omap list_omap app]. by rewrite N2Nat.id, N.pow2_bits_true, Hslot.
    + intros Hin. apply elem_of_seq in Hin. lia.
    + intros Hin. apply elem_of_seq in Hin. lia.
  - symmetry.
    replace 31%nat with (N.to_nat idx + (1 + (30 - N.to_nat idx)))%nat at 1 by lia.
    rewrite !seq_app. cbn [Nat.add seq].
    by replace (N.to_nat idx + 1)%nat with (S (N.to_nat idx)) by lia.
Qed.

End Allocation.

(** X17.  [fdToFp] on a channel mask: on a table with its 31 channel
    slots, for a mask with bit 31 clear and a non-zero [max], it returns
    the entries of the slots whose bit is set, lowest bit first, cut off
    after [max] of them; entries of closed channels (null pointers) are
    among them.  The registry is not changed. *)
Theorem fdToFp_resolves_channels_lowest_first
    (stdin stdout stderr : N) (s : VerilatedImp.t) (fdi max : N) :
  (31 <= length (VerilatedImp.m_fdps s))%nat ->
  N.testbit fdi 31 = false ->
  max ≠ 0 ->
  VerilatedImp.run (VerilatedImp.fdToFp stdin stdout stderr fdi true max) s
  = (VerilatedImp.Returned
       (take (N.to_nat max) (Inv.channels (VerilatedImp.m_fdps s) fdi)),
     s, [EvLock m_fdMutex; EvUnlock m_fdMutex]).
Proof.
  apply fdToFp_run_mcd.
Qed.

Lemma fdToFp_resolves_channels_lowest_first_witness :
  VerilatedImp.run (VerilatedImp.fdToFp 1 2 3 6 true 30) VerilatedImp.new
  = (VerilatedImp.Returned
       (take (N.to_nat 30)
          (Inv.channels (VerilatedImp.m_fdps VerilatedImp.new) 6)),
     VerilatedImp.new, [EvLock m_fdMutex; EvUnlock m_fdMutex]).
Proof.
  apply (fdToFp_resolves_channels_lowest_first 1 2 3 VerilatedImp.new 6 30).
  - vm_compute. lia.
  - reflexivity.
  - discriminate.
Defined.

(** X18.  [fdToFp] only reads.  On a table with its 31 channel slots,
    for every handle, every [max] and with or without an array to fill,
    it returns, leaves the registry as it was, and stores at most [max]
    streams; a descriptor handle (bit 31 set) resolves to at most one
    stream, and without an array nothing is stored. *)
Theorem fdToFp_only_reads
    (stdin stdout stderr : N) (s : VerilatedImp.t) (fdi max : N)
    (fp_given : bool) :
  (31 <= length (VerilatedImp.m_fdps s))%nat ->
  exists fps tr,
    VerilatedImp.run
      (VerilatedImp.fdToFp stdin stdout stderr fdi fp_given max) s
    = (VerilatedImp.Returned fps, s, tr)
    /\ N.of_nat (length fps) <= max
    /\ (N.testbit fdi 31 = true -> (length fps <= 1)%nat)
    /\ (fp_given = false -> fps = []).
Proof.
  intros Hlen.
  destruct fp_given; [|by exists [], []; repeat split; try done; cbn; lia].
  destruct (N.eq_dec max 0) as [->|Hmax];
    [by exists [], []; repeat split; try done; cbn; lia|].
  destruct (N.testbit fdi 31) eqn:Hbit.
  - eexists _, _. split.
    + unfold VerilatedImp.run.
      by rewrite (fdToFp_world_descriptor stdin stdout stderr fdi max
                    (VerilatedImp.World s [])).
    + cbn zeta. cbn [VerilatedImp.imp].
      assert (Hone : forall l : list N, (length l <= 1)%nat ->
                N.of_nat (length l) <= max) by (intros l Hl; lia).
      destruct (N.land fdi (VL_MASK_I 31) =? 0); [cbn; repeat split; try done; lia|].
      destruct (N.land fdi (VL_MASK_I 31) =? 1); [cbn; repeat split; try done; lia|].
      destruct (N.land fdi (VL_MASK_I 31) =? 2); [cbn; repeat split; try done; lia|].
      destruct (VerilatedImp.m_fdps s !! N.to_nat (N.land fdi (VL_MASK_I 31)));
        cbn; repeat split; try done; lia.
  - eexists _, _. split.
    + by apply fdToFp_run_mcd.
    + split; [|done]. rewrite length_take. lia.
Qed.

Lemma fdToFp_only_reads_witness :
  exists fps tr,
    VerilatedImp.run (VerilatedImp.fdToFp 1 2 3 6 true 30) VerilatedImp.new
    = (VerilatedImp.Returned fps, VerilatedImp.new, tr)
    /\ N.of_nat (length fps) <= 30
    /\ (N.testbit 6 31 = true -> (length fps <= 1)%nat)
    /\ (true = false -> fps = []).
Proof.
  apply (fdToFp_only_reads 1 2 3 VerilatedImp.new 6 30 true).
  vm_compute. lia.
Defined.

(** X19.  A descriptor handle resolves to the stream it was opened
    for.  Take a table in order, of fewer than 2^31 - 45 slots, whose
    free list names no slot below 3 (those three numbers are the
    standard streams).  After an [fdNew] whose native open succeeded,
    [fdToFp] of the handle returned stores exactly the opened stream. *)
Theorem fdToFp_after_fdNew
    (fopen : string -> string -> N) (stdin stdout stderr : N)
    (s : VerilatedImp.t) (filenamep modep : string) (max : N) :
  Inv.files s ->
  Forall (fun free => 3 <= free) (VerilatedImp.m_fdFree s) ->
  N.of_nat (length (VerilatedImp.m_fdps s)) + 45 < 2 ^ 31 ->
  fopen filenamep modep ≠ NULL ->
  max ≠ 0 ->
  exists h s',
    VerilatedImp.run (VerilatedImp.fdNew fopen filenamep modep) s
    = (VerilatedImp.Returned h, s',
       [EvFopen filenamep modep (fopen filenamep modep);
        EvLock m_fdMutex; EvUnlock m_fdMutex])
    /\ VerilatedImp.run (VerilatedImp.fdToFp stdin stdout stderr h true max) s'
       = (VerilatedImp.Returned [fopen filenamep modep], s',
          [EvLock m_fdMutex; EvUnlock m_fdMutex]).
Proof.
  intros Hinv Hfree3 Hsize Hopen Hmax.
  destruct (fdNew_success fopen s filenamep modep Hinv Hopen)
    as (s1 & rest & idx & Hshape & Hidx & Hlen1 & H3 & Hrun).
  specialize (H3 Hfree3).
  eexists _, _. split; [exact Hrun|].
  unfold VerilatedImp.run.
  rewrite (fdToFp_world_descriptor stdin stdout stderr) by
    (try done; apply handle_bit31).
  cbn zeta. rewrite handle_slot by lia.
  destruct (N.eqb_spec idx 0) as [|_]; [lia|].
  destruct (N.eqb_spec idx 1) as [|_]; [lia|].
  destruct (N.eqb_spec idx 2) as [|_]; [lia|].
  cbn [VerilatedImp.imp VerilatedImp.m_fdps VerilatedImp.set_fdps
       VerilatedImp.set_fdFree VerilatedImp.trace app].
  by rewrite list_lookup_insert_eq.
Qed.

Lemma fdToFp_after_fdNew_witness :
  exists h s',
    VerilatedImp.run
      (VerilatedImp.fdNew (Examples.fopen_ok 77) "sim.log" "w") VerilatedImp.new
    = (VerilatedImp.Returned h, s',
       [EvFopen "sim.log" "w" (Examples.fopen_ok 77 "sim.log" "w");
        EvLock m_fdMutex; EvUnlock m_fdMutex])
    /\ VerilatedImp.run (VerilatedImp.fdToFp 1 2 3 h true 1) s'
       = (VerilatedImp.Returned [Examples.fopen_ok 77 "sim.log" "w"], s',
          [EvLock m_fdMutex; EvUnlock m_fdMutex]).
Proof.
  apply (fdToFp_after_fdNew (Examples.fopen_ok 77) 1 2 3 VerilatedImp.new
           "sim.log" "w" 1).
  - apply files_new.
  - constructor.
  - vm_compute. reflexivity.
  - discriminate.
  - discriminate.
Defined.

(** X20.  A closed descriptor is the next one handed out.  On a table
    in order of fewer than 2^31 - 45 slots, let [fdNew] succeed with
    handle h and let [fdClose h] follow at once.  The close hands the
    stream to the native close, and the next [fdNew] whose own native
    open succeeds, for whatever file and whatever stream that open
    answers, returns the same handle h.  The registry is then the one
    the first [fdNew] left, except that the slot of h holds the stream
    of the second open. *)
Theorem fdNew_reuses_closed_descriptor
    (fopen1 fopen2 : string -> string -> N) (s : VerilatedImp.t)
    (filenamep modep filenamep' modep' : string) :
  Inv.files s ->
  N.of_nat (length (VerilatedImp.m_fdps s)) + 45 < 2 ^ 31 ->
  fopen1 filenamep modep ≠ NULL ->
  fopen2 filenamep' modep' ≠ NULL ->
  exists h s1 s2,
    (VerilatedImp.run (VerilatedImp.fdNew fopen1 filenamep modep) s).1
    = (VerilatedImp.Returned h, s1)
    /\ VerilatedImp.m_fdps s1 !! N.to_nat (N.land (VL_MASK_I 31) h)
       = Some (fopen1 filenamep modep)
    /\ VerilatedImp.run (VerilatedImp.fdClose h) s1
       = (VerilatedImp.Returned tt, s2,
          [EvLock m_fdMutex; EvFclose (fopen1 filenamep modep);
           EvUnlock m_fdMutex])
    /\ VerilatedImp.run (VerilatedImp.fdNew fopen2 filenamep' modep') s2
       = (VerilatedImp.Returned h,
          VerilatedImp.set_fdps
            (<[N.to_nat (N.land (VL_MASK_I 31) h) := fopen2 filenamep' modep']>
               (VerilatedImp.m_fdps s1)) s1,
          [EvFopen filenamep' modep' (fopen2 filenamep' modep');
           EvLock m_fdMutex; EvUnlock m_fdMutex]).
Proof.
  intros Hinv Hsize Hopen Hopen'.
  destruct (fdNew_success fopen1 s filenamep modep Hinv Hopen)
    as (s1 & rest & idx & Hshape & Hidx & Hlen1 & _ & Hrun).
  set (h := to_IData (N.lor idx (N.shiftl 1 31))) in *.
  assert (Hslot : N.land (VL_MASK_I 31) h = idx).
  { rewrite N.land_comm. apply handle_slot. lia. }
  eexists h, _, _. split; [by rewrite Hrun|].
  rewrite Hslot. split.
  { cbn. by rewrite list_lookup_insert_eq. }
  split.
  { rewrite (fdClose_descriptor_bound _ h (fopen1 filenamep modep));
      [reflexivity | apply handle_bit31 | | done].
    rewrite Hslot. cbn. by rewrite list_lookup_insert_eq. }
  rewrite Hslot.
  rewrite (fdNew_run_pop fopen2 _ filenamep' modep' rest idx);
    [| done | reflexivity | cbn; by rewrite !length_insert].
  cbn. rewrite !list_insert_insert_eq. by destruct s1.
Qed.

Lemma fdNew_reuses_closed_descriptor_witness :
  exists h s1 s2,
    (VerilatedImp.run
       (VerilatedImp.fdNew (Examples.fopen_ok 77) "sim.log" "w")
       VerilatedImp.new).1
    = (VerilatedImp.Returned h, s1)
    /\ VerilatedImp.m_fdps s1 !! N.to_nat (N.land (VL_MASK_I 31) h)
       = Some (Examples.fopen_ok 77 "sim.log" "w")
    /\ VerilatedImp.run (VerilatedImp.fdClose h) s1
       = (VerilatedImp.Returned tt, s2,
          [EvLock m_fdMutex; EvFclose (Examples.fopen_ok 77 "sim.log" "w");
           EvUnlock m_fdMutex])
    /\ VerilatedImp.run
         (VerilatedImp.fdNew (Examples.fopen_ok 78) "other.log" "r") s2
       = (VerilatedImp.Returned h,
          VerilatedImp.set_fdps
            (<[N.to_nat (N.land (VL_MASK_I 31) h)
               := Examples.fopen_ok 78 "other.log" "r"]>
               (VerilatedImp.m_fdps s1)) s1,
          [EvFopen "other.log" "r" (Examples.fopen_ok 78 "other.log" "r");
           EvLock m_fdMutex; EvUnlock m_fdMutex]).
Proof.
  apply (fdNew_reuses_closed_descriptor
           (Examples.fopen_ok 77) (Examples.fopen_ok 78) VerilatedImp.new
           "sim.log" "w" "other.log" "r").
  - apply files_new.
  - vm_compute. reflexivity.
  - discriminate.
  - discriminate.
Defined.

(** X21.  A channel handle resolves to the stream it was opened for.
    On a table in order with a slot left in the channel pool, after an
    [fdNewMcd] whose native open succeeded the handle returned is a
    non-zero mask with bit 31 clear, and [fdToFp] of it stores exactly
    the opened stream. *)
Theorem fdToFp_after_fdNewMcd
    (fopen : string -> string -> N) (stdin stdout stderr : N)
    (s : VerilatedImp.t) (filenamep : string) (max : N) :
  Inv.files s ->
  VerilatedImp.m_fdFreeMct s ≠ [] ->
  fopen filenamep "w"%string ≠ NULL ->
  max ≠ 0 ->
  exists h s' tr,
    VerilatedImp.run (VerilatedImp.fdNewMcd fopen filenamep) s
    = (VerilatedImp.Returned h, s', tr)
    /\ h ≠ 0
    /\ N.testbit h 31 = false
    /\ VerilatedImp.run (VerilatedImp.fdToFp stdin stdout stderr h true max) s'
       = (VerilatedImp.Returned [fopen filenamep "w"%string], s',
          [EvLock m_fdMutex; EvUnlock m_fdMutex]).
Proof.
  intros (Hlen & Hfree & Hmct) Hpool Hopen Hmax.
  destruct (VerilatedImp.m_fdFreeMct s) as [|idx rest _] eqn:Hshape using rev_ind;
    [done|].
  assert (Hidx : idx < 31).
  { apply Forall_app in Hmct as [_ Hidx].
    by apply (proj1 (Forall_singleton _ _)) in Hidx. }
  eexists _, _, _. split.
  { apply fdNewMcd_run_pop; [exact Hshape | lia]. }
  destruct (N.eqb_spec (fopen filenamep "w"%string) NULL) as [|_]; [done|].
  rewrite channel_handle by done.
  split; [apply N.pow_nonzero; lia|].
  split; [apply N.pow2_bits_false; lia|].
  rewrite fdToFp_run_mcd;
    [| cbn; rewrite length_insert; lia | apply N.pow2_bits_false; lia | done].
  rewrite (channels_single _ idx (fopen filenamep "w"%string));
    [| done | cbn; apply list_lookup_insert_eq; lia].
  by rewrite take_ge by (cbn [length]; lia).
Qed.

Lemma fdToFp_after_fdNewMcd_witness :
  exists h s' tr,
    VerilatedImp.run
      (VerilatedImp.fdNewMcd (Examples.fopen_ok 77) "sim.log") VerilatedImp.new
    = (VerilatedImp.Returned h, s', tr)
    /\ h ≠ 0
    /\ N.testbit h 31 = false
    /\ VerilatedImp.run (VerilatedImp.fdToFp 1 2 3 h true 30) s'
       = (VerilatedImp.Returned [Examples.fopen_ok 77 "sim.log" "w"%string], s',
          [EvLock m_fdMutex; EvUnlock m_fdMutex]).
Proof.
  apply (fdToFp_after_fdNewMcd (Examples.fopen_ok 77) 1 2 3 VerilatedImp.new
           "sim.log" 30).
  - apply files_new.
  - discriminate.
  - discriminate.
  - discriminate.
Defined.

(** X22.  [fdTell] and [fdSeek] on a channel mask act on one channel
    only: the lowest-numbered channel named in the mask, even when the
    mask names several.  On a table with its 31 channel slots and a mask
    with bit 31 clear, each returns what the native call answers for the
    stream of that channel (cast to [IData]); each returns 0 without a
    native call when that channel is closed or the mask names no
    channel, whatever the local [fp] held before.  The registry is not
    changed. *)
Theorem fdTell_fdSeek_act_on_lowest_channel
    (stdin stdout stderr : N) (ftell : N -> Z) (fseek : N -> Z -> Z -> Z)
    (s : VerilatedImp.t) (fdi fp0 offset origin : N) :
  (31 <= length (VerilatedImp.m_fdps s))%nat ->
  N.testbit fdi 31 = false ->
  VerilatedImp.run (VerilatedImp.fdTell stdin stdout stderr ftell fp0 fdi) s
  = (VerilatedImp.Returned
       match head (Inv.channels (VerilatedImp.m_fdps s) fdi) with
       | Some stream =>
           if stream =? NULL then 0 else VerilatedImp.IData_of_Z (ftell stream)
       | None => 0
       end,
     s, [EvLock m_fdMutex; EvUnlock m_fdMutex;
         EvLock m_fdMutex; EvUnlock m_fdMutex])
  /\ VerilatedImp.run
       (VerilatedImp.fdSeek stdin stdout stderr fseek fp0 fdi offset origin) s
     = (VerilatedImp.Returned
          match head (Inv.channels (VerilatedImp.m_fdps s) fdi) with
          | Some stream =>
              if stream =? NULL then 0
              else VerilatedImp.IData_of_Z
                     (fseek stream (Z.of_N offset) (int_wrap (Z.of_N origin)))
          | None => 0
          end,
        s, [EvLock m_fdMutex; EvUnlock m_fdMutex;
            EvLock m_fdMutex; EvUnlock m_fdMutex]).
Proof.
  intros Hlen Hbit. split.
  - unfold VerilatedImp.run, VerilatedImp.fdTell.
    unfold mbind at 1. unfold VerilatedImp.M_bind at 1.
    rewrite fdToFp_world_mcd by done.
    change (N.to_nat 1) with 1%nat. cbn [VerilatedImp.imp].
    destruct (Inv.channels (VerilatedImp.m_fdps s) fdi) as [|stream streams].
    + cbn [take length head]. unfold VerilatedImp.VerilatedLockGuard.
      unfold mbind, mret, VerilatedImp.M_bind, VerilatedImp.M_ret.
      cbn [Nat.eqb negb]. rewrite orb_true_r. cbn. by destruct s.
    + cbn [take length head]. unfold VerilatedImp.VerilatedLockGuard.
      unfold mbind, mret, VerilatedImp.M_bind, VerilatedImp.M_ret.
      cbn [Nat.eqb negb]. rewrite orb_false_r.
      destruct (stream =? NULL); cbn; by destruct s.
  - unfold VerilatedImp.run, VerilatedImp.fdSeek.
    unfold mbind at 1. unfold VerilatedImp.M_bind at 1.
    rewrite fdToFp_world_mcd by done.
    change (N.to_nat 1) with 1%nat. cbn [VerilatedImp.imp].
    destruct (Inv.channels (VerilatedImp.m_fdps s) fdi) as [|stream streams].
    + cbn [take length head]. unfold VerilatedImp.VerilatedLockGuard.
      unfold mbind, mret, VerilatedImp.M_bind, VerilatedImp.M_ret.
      cbn [Nat.eqb negb]. rewrite orb_true_r. cbn. by destruct s.
    + cbn [take length head]. unfold VerilatedImp.VerilatedLockGuard.
      unfold mbind, mret, VerilatedImp.M_bind, VerilatedImp.M_ret.
      cbn [Nat.eqb negb]. rewrite orb_false_r.
      destruct (stream =? NULL); cbn; by destruct s.
Qed.

Lemma fdTell_fdSeek_act_on_lowest_channel_witness :
  VerilatedImp.run
    (VerilatedImp.fdTell 1 2 3 MoreExamples.ftell_stub 0 (2 ^ 29 + 2 ^ 30))
    MoreExamples.two_channels
  = (VerilatedImp.Returned 7200, MoreExamples.two_channels,
     [EvLock m_fdMutex; EvUnlock m_fdMutex;
      EvLock m_fdMutex; EvUnlock m_fdMutex])
  /\ VerilatedImp.run
       (VerilatedImp.fdSeek 1 2 3 MoreExamples.fseek_stub 0 (2 ^ 29 + 2 ^ 30) 8 0)
       MoreExamples.two_channels
     = (VerilatedImp.Returned 0, MoreExamples.two_channels,
        [EvLock m_fdMutex; EvUnlock m_fdMutex;
         EvLock m_fdMutex; EvUnlock m_fdMutex]).
Proof.
  apply (fdTell_fdSeek_act_on_lowest_channel 1 2 3 MoreExamples.ftell_stub
           MoreExamples.fseek_stub MoreExamples.two_channels
           (2 ^ 29 + 2 ^ 30) 0 8 0).
  - vm_compute. lia.
  - reflexivity.
Defined.
